(** * image-similarity-web: the capture state machine and the scoring loop

    A shallow embedding of [src/App.tsx].  The component keeps its state in
    SolidJS signals and three plain variables ([videoRef], [beforeImageRef],
    [model]); one reactive effect owns the 300ms scoring interval.  Signals
    and variables become the fields of one record, each handler becomes a
    function on that record, and everything that happens "later" (a timer
    firing, an awaited promise settling, the user pressing a button, the
    camera delivering a new picture) becomes an event of a small executable
    step function.

    JavaScript numbers are IEEE-754 binary64 values: they are embedded as
    the kernel's primitive floats, so every definition below evaluates the
    way the browser does, rounding, infinities and NaN included. *)

From Stdlib Require Import ZArith Floats Lia.
From stdpp Require Import base option list strings gmap.

#[local] Set Warnings "-inexact-float".
#[local] Open Scope string_scope.
#[local] Open Scope list_scope.

(** ** Arithmetic interface *)

(** The operations [cosineSimilarity] uses.  [num_undef] is what an
    arithmetic operand read from a missing array slot turns into
    ([undefined] coerces to NaN). *)
Class JsNumber (T : Type) := {
  num_zero : T;
  num_add : T -> T -> T;
  num_mul : T -> T -> T;
  num_div : T -> T -> T;
  num_sqrt : T -> T;
  num_undef : T
}.

(** The numbers of the running program. *)
#[export] Instance float_number : JsNumber float := {|
  num_zero := 0%float;
  num_add := PrimFloat.add;
  num_mul := PrimFloat.mul;
  num_div := PrimFloat.div;
  num_sqrt := PrimFloat.sqrt;
  num_undef := PrimFloat.nan
|}.

(** ** Similarity engine *)

Section Similarity.
Context {T : Type} `{JsNumber T}.

(** [arr.reduce((acc, val, i) => ..., init)]: a left fold that also hands
    the callback the index of the element. *)
Fixpoint reduce_from {B : Type} (f : B -> T -> nat -> B)
         (i : nat) (arr : list T) (acc : B) : B :=
  match arr with
  | [] => acc
  | v :: rest => reduce_from f (S i) rest (f acc v i)
  end.

Definition reduce {B : Type} (f : B -> T -> nat -> B) (arr : list T) (init : B) : B :=
  reduce_from f 0 arr init.

(** [arr[i]] used as a number. *)
Definition at_index (arr : list T) (i : nat) : T :=
  default num_undef (arr !! i).

(** App.tsx, lines 82-87. *)
Definition cosineSimilarity (a b : list T) : T :=
  let dotProduct :=
    reduce (fun sum _ i => num_add sum (num_mul (at_index a i) (at_index b i))) a num_zero in
  let magnitudeA :=
    num_sqrt (reduce (fun sum val _ => num_add sum (num_mul val val)) a num_zero) in
  let magnitudeB :=
    num_sqrt (reduce (fun sum val _ => num_add sum (num_mul val val)) b num_zero) in
  num_div dotProduct (num_mul magnitudeA magnitudeB).

(** The formula of the specification: dot(a,b) / (|a| * |b|), with the
    dot product taken over the paired elements. *)
Fixpoint dot_from (acc : T) (a b : list T) : T :=
  match a, b with
  | x :: a', y :: b' => dot_from (num_add acc (num_mul x y)) a' b'
  | _, _ => acc
  end.

Definition dot (a b : list T) : T := dot_from num_zero a b.
Definition norm (a : list T) : T := num_sqrt (dot a a).
End Similarity.

(** ** Presentation band (App.tsx, line 204) *)

(** The colour of the similarity indicator. *)
Definition similarityIndicator (similarity : float) : string :=
  if (similarity <=? 0.5)%float then "#d93025"
  else if (similarity <=? 0.7)%float then "#f9ab00"
  else "#1e8e3e".

(** The specification names the three colours: red is the "low" band,
    amber "medium", green "high". *)
Inductive Band := Low | Medium | High.

Definition bandColor (b : Band) : string :=
  match b with
  | Low => "#d93025"
  | Medium => "#f9ab00"
  | High => "#1e8e3e"
  end.

(** ** Browser objects *)

(** A canvas holding a snapshot of the video: its size and its pixels. *)
Record Canvas := mkCanvas {
  canvas_width : nat;
  canvas_height : nat;
  canvas_pixels : list nat
}.

(** The argument of [getUserMedia] (lines 31-36); a granted stream is
    identified with the constraints it was requested under. *)
Record Constraints := mkConstraints {
  facingMode : string;
  aspectRatio : float
}.

(** The [<video>] element: its stream, whether [play()] was called, and the
    picture it currently shows. *)
Record Video := mkVideo {
  srcObject : option Constraints;
  playing : bool;
  videoWidth : nat;
  videoHeight : nat;
  picture : list nat
}.

(** The overlay [<img>]: [img_src] is the canvas whose PNG data URL was
    assigned to [src]. *)
Record Img := mkImg {
  img_src : option Canvas;
  img_display : string
}.

(** What [tf.loadLayersModel] resolves to. *)
Inductive LayersModel := Mobilenet.

(** How an awaited promise settles. *)
Inductive Settled (A : Type) :=
| Fulfilled (value : A)
| Failed (message : string).
Arguments Fulfilled {A} value.
Arguments Failed {A} message.

(** ** Component state

    The first twelve fields are the variables and signals of lines 6-19.
    The others are the runtime around them: the browser's table of active
    interval timers, the cleanup the scoring effect registered, the scoring
    cycles suspended at an [await], the pending [getUserMedia] calls and
    model load, and what [isMobile()] reads from the user agent. *)
Record State := mkState {
  videoRef : option Video;
  beforeImageRef : option Img;
  model : option LayersModel;
  beforeImageCapture : option Canvas;
  afterImageCapture : option Canvas;
  currentFacingMode : string;
  similarity : float;
  errorMessage : string;
  isMobileDevice : bool;
  showLiveFeed : bool;
  isModelLoading : bool;
  isPortrait : bool;
  intervals : gset nat;
  nextIntervalId : nat;
  effectCleanup : option nat;
  scoring : list (Canvas * Canvas);
  cameraRequests : list Constraints;
  modelRequest : bool;
  userAgentMobile : bool
}.

Definition with_videoRef (v : option Video) (s : State) : State :=
  mkState v (beforeImageRef s) (model s) (beforeImageCapture s) (afterImageCapture s)
    (currentFacingMode s) (similarity s) (errorMessage s) (isMobileDevice s)
    (showLiveFeed s) (isModelLoading s) (isPortrait s) (intervals s) (nextIntervalId s)
    (effectCleanup s) (scoring s) (cameraRequests s) (modelRequest s)
    (userAgentMobile s).
Definition with_beforeImageRef (v : option Img) (s : State) : State :=
  mkState (videoRef s) v (model s) (beforeImageCapture s) (afterImageCapture s)
    (currentFacingMode s) (similarity s) (errorMessage s) (isMobileDevice s)
    (showLiveFeed s) (isModelLoading s) (isPortrait s) (intervals s) (nextIntervalId s)
    (effectCleanup s) (scoring s) (cameraRequests s) (modelRequest s)
    (userAgentMobile s).
Definition with_model (v : option LayersModel) (s : State) : State :=
  mkState (videoRef s) (beforeImageRef s) v (beforeImageCapture s) (afterImageCapture s)
    (currentFacingMode s) (similarity s) (errorMessage s) (isMobileDevice s)
    (showLiveFeed s) (isModelLoading s) (isPortrait s) (intervals s) (nextIntervalId s)
    (effectCleanup s) (scoring s) (cameraRequests s) (modelRequest s)
    (userAgentMobile s).
Definition with_beforeImageCapture (v : option Canvas) (s : State) : State :=
  mkState (videoRef s) (beforeImageRef s) (model s) v (afterImageCapture s)
    (currentFacingMode s) (similarity s) (errorMessage s) (isMobileDevice s)
    (showLiveFeed s) (isModelLoading s) (isPortrait s) (intervals s) (nextIntervalId s)
    (effectCleanup s) (scoring s) (cameraRequests s) (modelRequest s)
    (userAgentMobile s).
Definition with_afterImageCapture (v : option Canvas) (s : State) : State :=
  mkState (videoRef s) (beforeImageRef s) (model s) (beforeImageCapture s) v
    (currentFacingMode s) (similarity s) (errorMessage s) (isMobileDevice s)
    (showLiveFeed s) (isModelLoading s) (isPortrait s) (intervals s) (nextIntervalId s)
    (effectCleanup s) (scoring s) (cameraRequests s) (modelRequest s)
    (userAgentMobile s).
Definition with_currentFacingMode (v : string) (s : State) : State :=
  mkState (videoRef s) (beforeImageRef s) (model s) (beforeImageCapture s)
    (afterImageCapture s) v (similarity s) (errorMessage s) (isMobileDevice s)
    (showLiveFeed s) (isModelLoading s) (isPortrait s) (intervals s) (nextIntervalId s)
    (effectCleanup s) (scoring s) (cameraRequests s) (modelRequest s)
    (userAgentMobile s).
Definition with_similarity (v : float) (s : State) : State :=
  mkState (videoRef s) (beforeImageRef s) (model s) (beforeImageCapture s)
    (afterImageCapture s) (currentFacingMode s) v (errorMessage s) (isMobileDevice s)
    (showLiveFeed s) (isModelLoading s) (isPortrait s) (intervals s) (nextIntervalId s)
    (effectCleanup s) (scoring s) (cameraRequests s) (modelRequest s)
    (userAgentMobile s).
Definition with_errorMessage (v : string) (s : State) : State :=
  mkState (videoRef s) (beforeImageRef s) (model s) (beforeImageCapture s)
    (afterImageCapture s) (currentFacingMode s) (similarity s) v (isMobileDevice s)
    (showLiveFeed s) (isModelLoading s) (isPortrait s) (intervals s) (nextIntervalId s)
    (effectCleanup s) (scoring s) (cameraRequests s) (modelRequest s)
    (userAgentMobile s).
Definition with_isMobileDevice (v : bool) (s : State) : State :=
  mkState (videoRef s) (beforeImageRef s) (model s) (beforeImageCapture s)
    (afterImageCapture s) (currentFacingMode s) (similarity s) (errorMessage s) v
    (showLiveFeed s) (isModelLoading s) (isPortrait s) (intervals s) (nextIntervalId s)
    (effectCleanup s) (scoring s) (cameraRequests s) (modelRequest s)
    (userAgentMobile s).
Definition with_showLiveFeed (v : bool) (s : State) : State :=
  mkState (videoRef s) (beforeImageRef s) (model s) (beforeImageCapture s)
    (afterImageCapture s) (currentFacingMode s) (similarity s) (errorMessage s)
    (isMobileDevice s) v (isModelLoading s) (isPortrait s) (intervals s)
    (nextIntervalId s) (effectCleanup s) (scoring s) (cameraRequests s) (modelRequest s)
    (userAgentMobile s).
Definition with_isModelLoading (v : bool) (s : State) : State :=
  mkState (videoRef s) (beforeImageRef s) (model s) (beforeImageCapture s)
    (afterImageCapture s) (currentFacingMode s) (similarity s) (errorMessage s)
    (isMobileDevice s) (showLiveFeed s) v (isPortrait s) (intervals s)
    (nextIntervalId s) (effectCleanup s) (scoring s) (cameraRequests s) (modelRequest s)
    (userAgentMobile s).
Definition with_isPortrait (v : bool) (s : State) : State :=
  mkState (videoRef s) (beforeImageRef s) (model s) (beforeImageCapture s)
    (afterImageCapture s) (currentFacingMode s) (similarity s) (errorMessage s)
    (isMobileDevice s) (showLiveFeed s) (isModelLoading s) v (intervals s)
    (nextIntervalId s) (effectCleanup s) (scoring s) (cameraRequests s) (modelRequest s)
    (userAgentMobile s).
Definition with_intervals (v : gset nat) (s : State) : State :=
  mkState (videoRef s) (beforeImageRef s) (model s) (beforeImageCapture s)
    (afterImageCapture s) (currentFacingMode s) (similarity s) (errorMessage s)
    (isMobileDevice s) (showLiveFeed s) (isModelLoading s) (isPortrait s) v
    (nextIntervalId s) (effectCleanup s) (scoring s) (cameraRequests s) (modelRequest s)
    (userAgentMobile s).
Definition with_nextIntervalId (v : nat) (s : State) : State :=
  mkState (videoRef s) (beforeImageRef s) (model s) (beforeImageCapture s)
    (afterImageCapture s) (currentFacingMode s) (similarity s) (errorMessage s)
    (isMobileDevice s) (showLiveFeed s) (isModelLoading s) (isPortrait s) (intervals s)
    v (effectCleanup s) (scoring s) (cameraRequests s) (modelRequest s)
    (userAgentMobile s).
Definition with_effectCleanup (v : option nat) (s : State) : State :=
  mkState (videoRef s) (beforeImageRef s) (model s) (beforeImageCapture s)
    (afterImageCapture s) (currentFacingMode s) (similarity s) (errorMessage s)
    (isMobileDevice s) (showLiveFeed s) (isModelLoading s) (isPortrait s) (intervals s)
    (nextIntervalId s) v (scoring s) (cameraRequests s) (modelRequest s)
    (userAgentMobile s).
Definition with_scoring (v : list (Canvas * Canvas)) (s : State) : State :=
  mkState (videoRef s) (beforeImageRef s) (model s) (beforeImageCapture s)
    (afterImageCapture s) (currentFacingMode s) (similarity s) (errorMessage s)
    (isMobileDevice s) (showLiveFeed s) (isModelLoading s) (isPortrait s) (intervals s)
    (nextIntervalId s) (effectCleanup s) v (cameraRequests s) (modelRequest s)
    (userAgentMobile s).
Definition with_cameraRequests (v : list Constraints) (s : State) : State :=
  mkState (videoRef s) (beforeImageRef s) (model s) (beforeImageCapture s)
    (afterImageCapture s) (currentFacingMode s) (similarity s) (errorMessage s)
    (isMobileDevice s) (showLiveFeed s) (isModelLoading s) (isPortrait s) (intervals s)
    (nextIntervalId s) (effectCleanup s) (scoring s) v (modelRequest s)
    (userAgentMobile s).
Definition with_modelRequest (v : bool) (s : State) : State :=
  mkState (videoRef s) (beforeImageRef s) (model s) (beforeImageCapture s)
    (afterImageCapture s) (currentFacingMode s) (similarity s) (errorMessage s)
    (isMobileDevice s) (showLiveFeed s) (isModelLoading s) (isPortrait s) (intervals s)
    (nextIntervalId s) (effectCleanup s) (scoring s) (cameraRequests s) v
    (userAgentMobile s).
Definition isSome {A : Type} (o : option A) : bool :=
  match o with Some _ => true | None => false end.

(** ** The scoring effect (lines 134-139) *)

Definition clearInterval (id : nat) (s : State) : State :=
  with_intervals (intervals s ∖ {[id]}) s.

(** [setInterval(updateSimilarityScore, 300)]: a fresh timer id. *)
Definition setInterval (s : State) : nat * State :=
  let id := nextIntervalId s in
  (id, with_nextIntervalId (S id) (with_intervals ({[id]} ∪ intervals s) s)).

(** One run of the effect: the cleanup of the previous run first, then the
    body. *)
Definition runEffect (s : State) : State :=
  let s1 := match effectCleanup s with
            | Some id => with_effectCleanup None (clearInterval id s)
            | None => s
            end in
  if isSome (beforeImageCapture s1) && showLiveFeed s1 then
    let '(intervalId, s2) := setInterval s1 in
    with_effectCleanup (Some intervalId) s2
  else s1.

(** ** Signal setters

    A setter notifies its observers only when the value changes.  A canvas
    is a fresh object at every capture, so storing one always counts as a
    change; [null] over [null] does not. *)

Definition setBeforeImageCapture (v : option Canvas) (s : State) : State :=
  match v, beforeImageCapture s with
  | None, None => s
  | _, _ => runEffect (with_beforeImageCapture v s)
  end.

(** The effect reads [showLiveFeed()] only behind [beforeImageCapture() &&],
    so it observes this signal only while a before-frame is stored. *)
Definition setShowLiveFeed (v : bool) (s : State) : State :=
  if bool_decide (v = showLiveFeed s) then s
  else if isSome (beforeImageCapture s) then runEffect (with_showLiveFeed v s)
  else with_showLiveFeed v s.

Definition setAfterImageCapture (v : option Canvas) (s : State) : State :=
  with_afterImageCapture v s.

Definition setSimilarity (v : float) (s : State) : State := with_similarity v s.
Definition setErrorMessage (v : string) (s : State) : State := with_errorMessage v s.
Definition setIsMobileDevice (v : bool) (s : State) : State := with_isMobileDevice v s.
Definition setIsPortrait (v : bool) (s : State) : State := with_isPortrait v s.

Definition setCurrentFacingMode (f : string -> string) (s : State) : State :=
  with_currentFacingMode (f (currentFacingMode s)) s.

(** The view (lines 154-211) shows the loading indicator while
    [isModelLoading()] holds and the video, overlay and buttons otherwise:
    when the signal turns false the [<video>] and [<img>] elements are
    created and assigned to their refs. *)
Definition setIsModelLoading (v : bool) (s : State) : State :=
  if bool_decide (v = isModelLoading s) then s
  else if v then with_isModelLoading true s
  else
    with_beforeImageRef
      (Some (mkImg None (if isSome (beforeImageCapture s) then "block" else "none")))
      (with_videoRef (Some (mkVideo None false 0 0 []))
         (with_isModelLoading false s)).

(** ** Handlers *)

(** Lines 21-23; the window's orientation is the argument. *)
Definition handleResize (portrait : bool) (s : State) : State :=
  setIsPortrait portrait s.

(** Lines 29-37, up to the [await]. *)
Definition setupCamera_begin (s : State) : State :=
  let constraints :=
    mkConstraints (currentFacingMode s)
                  (if isPortrait s then 3 / 4 else 4 / 3)%float in
  with_cameraRequests (cameraRequests s ++ [constraints]) s.

(** Lines 38-49, once [getUserMedia] has settled. *)
Definition setupCamera_resume (constraints : Constraints) (r : Settled unit)
           (s : State) : State :=
  match r with
  | Fulfilled _ =>
      let s1 := match videoRef s with
                | Some v =>
                    with_videoRef
                      (Some (mkVideo (Some constraints) (playing v)
                                     (videoWidth v) (videoHeight v) (picture v))) s
                | None => s
                end in
      setIsMobileDevice (userAgentMobile s1) s1
  | Failed message => setErrorMessage ("Error accessing camera: " +:+ message) s
  end.

(** Lines 40-44: the [onloadedmetadata] handler. *)
Definition onloadedmetadata (s : State) : State :=
  match videoRef s with
  | Some v =>
      with_videoRef
        (Some (mkVideo (srcObject v) true (videoWidth v) (videoHeight v) (picture v))) s
  | None => s
  end.

(** Lines 52-55, up to the [await]. *)
Definition loadModel_begin (s : State) : State :=
  with_modelRequest true (setIsModelLoading true s).

(** Lines 55-60, once [tf.loadLayersModel] has settled. *)
Definition loadModel_resume (r : Settled LayersModel) (s : State) : State :=
  match r with
  | Fulfilled m => setIsModelLoading false (with_model (Some m) s)
  | Failed message =>
      setIsModelLoading false (setErrorMessage ("Error loading model: " +:+ message) s)
  end.

(** Lines 63-70. *)
Definition captureImage (s : State) : option Canvas :=
  match videoRef s with
  | None => None
  | Some v => Some (mkCanvas (videoWidth v) (videoHeight v) (picture v))
  end.

(** How a call of an [async] function leaves its synchronous part. *)
Inductive Completion := Returned | Suspended | Threw.

(** Lines 89-94, up to the first [await].  [getImageEmbedding] calls
    [model.predict], which throws when [model] is still undefined. *)
Definition updateSimilarityScore (s : State) : Completion * State :=
  match beforeImageCapture s, captureImage s with
  | Some before, Some current =>
      match model s with
      | Some _ => (Suspended, with_scoring (scoring s ++ [(before, current)]) s)
      | None => (Threw, s)
      end
  | _, _ => (Returned, s)
  end.

(** Lines 94-97, once both embeddings have settled; a failed inference
    rejects the cycle and nothing is written. *)
Definition updateSimilarityScore_resume
           (r : Settled (list float * list float)) (s : State) : State :=
  match r with
  | Fulfilled (beforeEmbedding, currentEmbedding) =>
      setSimilarity (cosineSimilarity beforeEmbedding currentEmbedding) s
  | Failed _ => s
  end.

(** Lines 100-109. *)
Definition captureBefore (s : State) : State :=
  match captureImage s with
  | Some captured =>
      let s1 := setBeforeImageCapture (Some captured) s in
      match beforeImageRef s1 with
      | Some _ => with_beforeImageRef (Some (mkImg (Some captured) "block")) s1
      | None => s1
      end
  | None => s
  end.

(** Lines 111-119. *)
Definition captureAfter (s : State) : State :=
  if negb (isSome (beforeImageCapture s)) || negb (isSome (model s)) then s
  else
    match captureImage s with
    | Some captured =>
        let s1 := setAfterImageCapture (Some captured) s in
        let s2 := snd (updateSimilarityScore s1) in
        setShowLiveFeed false s2
    | None => s
    end.

(** Lines 121-127. *)
Definition reset (s : State) : State :=
  let s1 := setBeforeImageCapture None s in
  let s2 := setAfterImageCapture None s1 in
  let s3 := match beforeImageRef s2 with
            | Some img => with_beforeImageRef (Some (mkImg (img_src img) "none")) s2
            | None => s2
            end in
  let s4 := setSimilarity 0%float s3 in
  setShowLiveFeed true s4.

(** Line 130. *)
Definition toggleFacingMode (prev : string) : string :=
  if bool_decide (prev = "user") then "environment" else "user".

(** Lines 129-132, up to the [await] inside [setupCamera]; the rest is
    [setupCamera_resume]. *)
Definition switchCamera (s : State) : State :=
  setupCamera_begin (setCurrentFacingMode toggleFacingMode s).

(** ** Buttons (lines 194-197)

    The buttons exist only once the model is no longer loading, and each
    carries a [disabled] attribute; a press on an absent or disabled button
    reaches no handler. *)

Inductive Button :=
| CaptureBeforeButton | CaptureAfterButton | ResetButton | SwitchCameraButton.

Definition rendered (b : Button) (s : State) : bool :=
  match b with
  | SwitchCameraButton => negb (isModelLoading s) && isMobileDevice s
  | _ => negb (isModelLoading s)
  end.

Definition disabled (b : Button) (s : State) : bool :=
  match b with
  | CaptureBeforeButton => isSome (beforeImageCapture s) || isModelLoading s
  | CaptureAfterButton =>
      negb (isSome (beforeImageCapture s)) || isSome (afterImageCapture s)
      || isModelLoading s
  | ResetButton => negb (isSome (beforeImageCapture s)) || isModelLoading s
  | SwitchCameraButton => isModelLoading s
  end.

Definition onClick (b : Button) : State -> State :=
  match b with
  | CaptureBeforeButton => captureBefore
  | CaptureAfterButton => captureAfter
  | ResetButton => reset
  | SwitchCameraButton => switchCamera
  end.

Definition click (b : Button) (s : State) : State :=
  if rendered b s && negb (disabled b s) then onClick b s else s.

(** ** The component as a transition system *)

(** The signals as created at lines 10-19, before anything has run. *)
Definition component (portrait mobile : bool) : State :=
  {| videoRef := None; beforeImageRef := None; model := None;
     beforeImageCapture := None; afterImageCapture := None;
     currentFacingMode := "user"; similarity := 0%float; errorMessage := "";
     isMobileDevice := false; showLiveFeed := true; isModelLoading := true;
     isPortrait := portrait;
     intervals := ∅; nextIntervalId := 1; effectCleanup := None;
     scoring := []; cameraRequests := []; modelRequest := false;
     userAgentMobile := mobile |}.

(** The first run of the effect, then [onMount] (lines 141-145). *)
Definition mount (portrait mobile : bool) : State :=
  loadModel_begin (setupCamera_begin (runEffect (component portrait mobile))).

(** Everything that can happen to a mounted component. *)
Inductive Event :=
| Click (b : Button)
| Tick (id : nat)
| ScoreSettled (n : nat) (r : Settled (list float * list float))
| CameraSettled (r : Settled unit)
| ModelSettled (r : Settled LayersModel)
| LoadedMetadata
| VideoFrame (width height : nat) (pixels : list nat)
| Resize (portrait : bool).

(** The camera shows a new picture. *)
Definition videoFrame (w h : nat) (pixels : list nat) (s : State) : option State :=
  match videoRef s with
  | Some v =>
      match srcObject v with
      | Some _ => Some (with_videoRef (Some (mkVideo (srcObject v) (playing v) w h pixels)) s)
      | None => None
      end
  | None => None
  end.

(** One step; [None] when the event cannot occur in the state: a timer that
    is not active does not fire, a promise that is not pending does not
    settle. *)
Definition exec (e : Event) (s : State) : option State :=
  match e with
  | Click b => Some (click b s)
  | Tick id =>
      if bool_decide (id ∈ intervals s) then Some (snd (updateSimilarityScore s))
      else None
  | ScoreSettled n r =>
      match scoring s !! n with
      | Some _ => Some (updateSimilarityScore_resume r (with_scoring (delete n (scoring s)) s))
      | None => None
      end
  | CameraSettled r =>
      match cameraRequests s with
      | constraints :: rest =>
          Some (setupCamera_resume constraints r (with_cameraRequests rest s))
      | [] => None
      end
  | ModelSettled r =>
      if modelRequest s then Some (loadModel_resume r (with_modelRequest false s))
      else None
  | LoadedMetadata =>
      match videoRef s with
      | Some v => if isSome (srcObject v) then Some (onloadedmetadata s) else None
      | None => None
      end
  | VideoFrame w h pixels => videoFrame w h pixels s
  | Resize portrait => Some (handleResize portrait s)
  end.

Fixpoint run (events : list Event) (s : State) : option State :=
  match events with
  | [] => Some s
  | e :: rest =>
      match exec e s with
      | Some s' => run rest s'
      | None => None
      end
  end.

(** The states the component can be in. *)
Definition reachable (s : State) : Prop :=
  exists portrait mobile events, run events (mount portrait mobile) = Some s.

(** The capture phase, as the view reads it off the two stored frames. *)
Inductive Phase := Live | BeforeCaptured | AfterCaptured.

Definition phase (s : State) : Phase :=
  match beforeImageCapture s, afterImageCapture s with
  | None, _ => Live
  | Some _, None => BeforeCaptured
  | Some _, Some _ => AfterCaptured
  end.

(** ** Vocabulary of the statements *)

(** The three fields the scoring effect writes. *)
Definition with_timers (i : gset nat) (n : nat) (c : option nat) (s : State) : State :=
  with_effectCleanup c (with_nextIntervalId n (with_intervals i s)).

(** The only active interval is the one the effect will clear. *)
Definition timers_owned (s : State) : Prop :=
  forall id, id ∈ intervals s <-> effectCleanup s = Some id.

(** The effect holds an interval exactly while a before-frame is stored
    and the live feed is shown. *)
Definition effect_settled (s : State) : Prop :=
  is_Some (effectCleanup s)
  <-> (is_Some (beforeImageCapture s) /\ showLiveFeed s = true).

(** The live feed is hidden exactly while an after-frame is stored. *)
Definition feed_follows_after (s : State) : Prop :=
  showLiveFeed s = negb (isSome (afterImageCapture s)).

Definition invariant (s : State) : Prop :=
  timers_owned s /\ effect_settled s /\ feed_follows_after s.

(** [captureAfter] gets past its guard and captures a frame. *)
Definition captureAfter_succeeds (s : State) : Prop :=
  is_Some (beforeImageCapture s) /\ is_Some (model s) /\ is_Some (videoRef s).

(** What the invariant reads of a state. *)
Definition timer_view (s : State) :=
  (intervals s, effectCleanup s, beforeImageCapture s, showLiveFeed s,
   afterImageCapture s).

(** The frozen phase: both frames stored. *)
Definition frozen (s : State) : Prop :=
  invariant s /\ is_Some (beforeImageCapture s) /\ is_Some (afterImageCapture s).

(** ** Sample runs *)

(** The model loads, the camera is granted, a picture arrives and the user
    presses Capture Before; then the camera shows another picture. *)
Definition first_picture : list nat := [7; 8].
Definition second_picture : list nat := [9; 9].

Definition before_captured_events : list Event :=
  [ModelSettled (Fulfilled Mobilenet); CameraSettled (Fulfilled tt);
   VideoFrame 2 1 first_picture; Click CaptureBeforeButton;
   VideoFrame 2 1 second_picture].

Definition state_after (events : list Event) : State :=
  default (mount false true) (run events (mount false true)).

Definition before_captured_state : State := state_after before_captured_events.

(** The model fails to load. *)
Definition load_failed_state (portrait mobile : bool) (message : string) : State :=
  loadModel_resume (Failed message) (with_modelRequest false (mount portrait mobile)).

(** The embeddings of the specification's three scenarios. *)
Definition e_10 : list float := [1; 0]%float.
Definition e_01 : list float := [0; 1]%float.
Definition e_68 : list float := [0.6; 0.8]%float.

(** ** Vocabulary of the further properties *)

(** While the model is loading the view holds no video element and no
    frame is stored; afterwards the element exists. *)
Definition view_mounted (s : State) : Prop :=
  (isModelLoading s = true ->
   videoRef s = None /\ beforeImageRef s = None /\ beforeImageCapture s = None) /\
  (isModelLoading s = false -> is_Some (videoRef s)).

(** A binary64 value that is a zero of either sign, or NaN. *)
Definition zero_or_nan (x : float) : Prop :=
  match Prim2SF x with
  | S754_zero _ | S754_nan => True
  | _ => False
  end.

(** A button that is in the view and not disabled. *)
Definition enabled (b : Button) (s : State) : bool :=
  rendered b s && negb (disabled b s).



(** The run in which the camera is granted while the model is still
    loading, the model then loads and the user presses Capture Before. *)
Definition streamless_events : list Event :=
  [CameraSettled (Fulfilled tt); ModelSettled (Fulfilled Mobilenet);
   Click CaptureBeforeButton].

(** * Properties *)

(** ** The similarity engine *)

Section SimilarityFacts.
Context {T : Type} `{JsNumber T}.

Lemma reduce_squares_from (a : list T) : forall i acc,
  reduce_from (fun sum val _ => num_add sum (num_mul val val)) i a acc
  = dot_from acc a a.
Proof.
  induction a as [|x a IH]; intros i acc; simpl; [reflexivity|].
  apply IH.
Qed.

Lemma reduce_squares (a : list T) :
  reduce (fun sum val _ => num_add sum (num_mul val val)) a num_zero = dot a a.
Proof. apply reduce_squares_from. Qed.

(** The index-driven fold of line 83 reads [a[i]] and [b[i]] from the
    whole arrays; on arrays of equal length it visits the pairs in order. *)
Lemma reduce_products_from (pa pb : list T) : forall (sa sb : list T) acc,
  length pa = length pb -> length sa = length sb ->
  reduce_from
    (fun sum _ i => num_add sum (num_mul (at_index (pa ++ sa) i) (at_index (pb ++ sb) i)))
    (length pa) sa acc
  = dot_from acc sa sb.
Proof.
  intros sa. revert pa pb.
  induction sa as [|x sa IH]; intros pa pb sb acc Hp Hs.
  - destruct sb; [reflexivity | discriminate].
  - destruct sb as [|y sb]; [discriminate|]. simpl.
    assert (Hx : at_index (pa ++ x :: sa) (length pa) = x).
    { unfold at_index. now rewrite list_lookup_middle. }
    assert (Hy : at_index (pb ++ y :: sb) (length pa) = y).
    { unfold at_index. now rewrite list_lookup_middle. }
    rewrite Hx, Hy.
    specialize (IH (pa ++ [x]) (pb ++ [y]) sb (num_add acc (num_mul x y))).
    rewrite !length_app, <- !app_assoc in IH. simpl in IH.
    rewrite Nat.add_1_r in IH. apply IH; [lia | now injection Hs].
Qed.

Lemma reduce_products (a b : list T) :
  length a = length b ->
  reduce (fun sum _ i => num_add sum (num_mul (at_index a i) (at_index b i))) a num_zero
  = dot a b.
Proof.
  intros Hlen. exact (reduce_products_from [] [] a b num_zero eq_refl Hlen).
Qed.


(** Symmetry needs nothing of the arithmetic but a commutative product. *)
Hypothesis num_mul_comm : forall x y : T, num_mul x y = num_mul y x.



End SimilarityFacts.

(** Binary64 multiplication is commutative, NaN and infinities included. *)
Lemma SF64mul_comm (x y : spec_float) : SF64mul x y = SF64mul y x.
Proof.
  unfold SF64mul, SFmul.
  destruct x as [sx|sx| |sx mx ex], y as [sy|sy| |sy my ey];
    try reflexivity; try (now rewrite (xorb_comm sx sy)).
  now rewrite (xorb_comm sx sy), (Pos.mul_comm mx my), (Z.add_comm ex ey).
Qed.

Lemma float_mul_comm (x y : float) : (x * y = y * x)%float.
Proof.
  apply Prim2SF_inj. rewrite !mul_spec. apply SF64mul_comm.
Qed.

(** *** Comparisons with the band thresholds *)

Lemma SFltb_SFleb_false (m m' : positive) (e : Z) (x : spec_float) :
  (m' <= m)%positive ->
  SFltb (S754_finite false m e) x = true ->
  SFleb x (S754_finite false m' e) = false.
Proof.
  intros Hm. unfold SFltb, SFleb.
  destruct x as [sx|sx| |sx mx ex]; simpl; try discriminate.
  - now destruct sx.
  - destruct sx; [discriminate|].
    change (Pos.compare_cont Eq m mx) with (Pos.compare m mx).
    change (Pos.compare_cont Eq mx m') with (Pos.compare mx m').
    destruct (Z.compare_spec e ex) as [->|Hlt|Hgt]; try discriminate.
    + rewrite Z.compare_refl.
      destruct (Pos.compare_spec m mx); try discriminate.
      intros _. destruct (Pos.compare_spec mx m'); try reflexivity; lia.
    + intros _. destruct (Z.compare_spec ex e); try reflexivity; lia.
Qed.

Lemma float_above_threshold (t t' s : float) (m m' : positive) (e : Z) :
  Prim2SF t = S754_finite false m e ->
  Prim2SF t' = S754_finite false m' e ->
  (m' <= m)%positive ->
  (t <? s)%float = true -> (s <=? t')%float = false.
Proof.
  intros Ht Ht' Hm. rewrite ltb_spec, leb_spec, Ht, Ht'.
  now apply SFltb_SFleb_false.
Qed.

Lemma band_low (s : float) : (s <=? 0.5)%float = true -> similarityIndicator s = bandColor Low.
Proof. intros Hs. unfold similarityIndicator. now rewrite Hs. Qed.

Lemma band_medium (s : float) :
  (0.5 <? s)%float = true -> (s <=? 0.7)%float = true ->
  similarityIndicator s = bandColor Medium.
Proof.
  intros Hlo Hhi. unfold similarityIndicator.
  rewrite (float_above_threshold 0.5 0.5 s 4503599627370496 4503599627370496 (-53)), Hhi;
    try reflexivity; try lia. exact Hlo.
Qed.

Lemma band_high (s : float) :
  (0.7 <? s)%float = true -> similarityIndicator s = bandColor High.
Proof.
  intros Hs. unfold similarityIndicator.
  rewrite (float_above_threshold 0.7 0.5 s 6305039478318694 4503599627370496 (-53)),
          (float_above_threshold 0.7 0.7 s 6305039478318694 6305039478318694 (-53));
    try reflexivity; try lia; exact Hs.
Qed.

(** On binary64 numbers the scenario vectors have similarity exactly 1 with
    themselves; the zero vector has magnitude 0 and its similarity is NaN,
    which the engine propagates. *)
Example self_similarity_binary64 :
  cosineSimilarity e_10 e_10 = 1%float /\
  cosineSimilarity e_68 e_68 = 1%float /\
  cosineSimilarity [0; 0]%float [0; 0]%float = nan.
Proof. repeat split; vm_compute; reflexivity. Qed.

(** C6: a score of at most 0.5 is shown in the colour of the low band, a
    score above 0.5 and at most 0.7 in that of the medium band, a score
    above 0.7 in that of the high band; and [1,0] against [1,0] scores 1
    (high), [1,0] against [0,1] scores 0 (low), [1,0] against [0.6,0.8]
    scores 0.6 (medium), all computed on binary64 numbers. *)
Theorem similarity_bands (s : float) :
  ((s <=? 0.5)%float = true -> similarityIndicator s = bandColor Low) /\
  ((0.5 <? s)%float = true -> (s <=? 0.7)%float = true ->
   similarityIndicator s = bandColor Medium) /\
  ((0.7 <? s)%float = true -> similarityIndicator s = bandColor High) /\
  (cosineSimilarity e_10 e_10 = 1%float /\
   similarityIndicator (cosineSimilarity e_10 e_10) = bandColor High) /\
  (cosineSimilarity e_10 e_01 = 0%float /\
   similarityIndicator (cosineSimilarity e_10 e_01) = bandColor Low) /\
  (cosineSimilarity e_10 e_68 = 0.6%float /\
   similarityIndicator (cosineSimilarity e_10 e_68) = bandColor Medium).
Proof.
  split; [apply band_low|]. split; [apply band_medium|]. split; [apply band_high|].
  repeat split; vm_compute; reflexivity.
Qed.

Lemma similarity_bands_witness :
  similarityIndicator 0.25%float = bandColor Low /\
  similarityIndicator 0.625%float = bandColor Medium /\
  similarityIndicator 0.75%float = bandColor High.
Proof.
  split; [|split].
  - apply (proj1 (similarity_bands 0.25%float)). reflexivity.
  - apply (proj1 (proj2 (similarity_bands 0.625%float))); reflexivity.
  - apply (proj1 (proj2 (proj2 (similarity_bands 0.75%float)))). reflexivity.
Defined.

(** ** The capture state machine *)

Ltac state_simpl :=
  cbn [videoRef beforeImageRef model beforeImageCapture afterImageCapture
       currentFacingMode similarity errorMessage isMobileDevice showLiveFeed
       isModelLoading isPortrait intervals nextIntervalId effectCleanup scoring
       cameraRequests modelRequest userAgentMobile
       with_videoRef with_beforeImageRef with_model with_beforeImageCapture
       with_afterImageCapture with_currentFacingMode with_similarity
       with_errorMessage with_isMobileDevice with_showLiveFeed with_isModelLoading
       with_isPortrait with_intervals with_nextIntervalId with_effectCleanup
       with_scoring with_cameraRequests with_modelRequest with_timers
       setAfterImageCapture setSimilarity setErrorMessage setIsMobileDevice
       setIsPortrait setCurrentFacingMode] in *.

(** *** The effect touches the timers only *)

Lemma runEffect_timers (s : State) : exists i n c, runEffect s = with_timers i n c s.
Proof.
  exists (intervals (runEffect s)), (nextIntervalId (runEffect s)),
    (effectCleanup (runEffect s)).
  destruct s. unfold runEffect, setInterval, clearInterval. simpl.
  repeat case_match; reflexivity.
Qed.

Lemma setBeforeImageCapture_timers (v : option Canvas) (s : State) :
  exists i n c, setBeforeImageCapture v s = with_timers i n c (with_beforeImageCapture v s).
Proof.
  unfold setBeforeImageCapture.
  destruct v, (beforeImageCapture s) eqn:E; try apply runEffect_timers.
  destruct s; simpl in E; subst.
  eexists intervals0, nextIntervalId0, effectCleanup0; reflexivity.
Qed.

Lemma setShowLiveFeed_timers (v : bool) (s : State) :
  exists i n c, setShowLiveFeed v s = with_timers i n c (with_showLiveFeed v s).
Proof.
  unfold setShowLiveFeed. case_bool_decide as E.
  - destruct s; simpl in E; subst.
    exists intervals0, nextIntervalId0, effectCleanup0; reflexivity.
  - destruct (isSome (beforeImageCapture s)); [apply runEffect_timers|].
    destruct s. exists intervals0, nextIntervalId0, effectCleanup0; reflexivity.
Qed.

Ltac open_setters :=
  repeat match goal with
  | |- context [setShowLiveFeed ?v ?s] =>
      let E := fresh in
      destruct (setShowLiveFeed_timers v s) as (? & ? & ? & E); rewrite E; clear E
  | |- context [setBeforeImageCapture ?v ?s] =>
      let E := fresh in
      destruct (setBeforeImageCapture_timers v s) as (? & ? & ? & E); rewrite E; clear E
  | |- context [runEffect ?s] =>
      let E := fresh in
      destruct (runEffect_timers s) as (? & ? & ? & E); rewrite E; clear E
  end.

(** *** reset *)

(** C3: from every state [reset] ends with no before-frame and no
    after-frame stored, a similarity of 0 and the live feed shown, which is
    the Live phase; nothing in the state can make it refuse. *)
Theorem reset_yields_live (s : State) :
  beforeImageCapture (reset s) = None /\
  afterImageCapture (reset s) = None /\
  similarity (reset s) = 0%float /\
  showLiveFeed (reset s) = true /\
  phase (reset s) = Live.
Proof.
  unfold phase, reset. open_setters. state_simpl.
  destruct (beforeImageRef s); state_simpl; auto.
Qed.

(** C10: [reset] leaves the facing mode and the error message as they
    were, and with them every other variable and signal than the two stored
    frames, the score and the visibility of the live feed: the model, the
    loading flag, the device and orientation flags, the video element and
    whatever is still pending. *)
Theorem reset_keeps_facing_mode_and_error (s : State) :
  currentFacingMode (reset s) = currentFacingMode s /\
  errorMessage (reset s) = errorMessage s /\
  model (reset s) = model s /\
  isModelLoading (reset s) = isModelLoading s /\
  isMobileDevice (reset s) = isMobileDevice s /\
  isPortrait (reset s) = isPortrait s /\
  videoRef (reset s) = videoRef s /\
  scoring (reset s) = scoring s /\
  cameraRequests (reset s) = cameraRequests s /\
  modelRequest (reset s) = modelRequest s.
Proof.
  unfold reset. open_setters. state_simpl.
  destruct (beforeImageRef s); state_simpl; repeat split; reflexivity.
Qed.

(** *** captureAfter *)

(** C7: with no before-frame stored, or with no model, [captureAfter]
    returns at its guard and the state is the one it was called in: no
    after-frame, the same score, the live feed as it was. *)
Theorem captureAfter_refused (s : State) :
  beforeImageCapture s = None \/ model s = None ->
  captureAfter s = s.
Proof.
  intros [E|E]; unfold captureAfter; rewrite E; simpl; [reflexivity|].
  now rewrite orb_true_r.
Qed.

(** *** switchCamera *)

(** C9: [switchCamera] turns "user" into "environment" and anything else
    into "user", so the facing mode always changes, and asks the camera for
    a stream under the new mode; when that request is granted the stream is
    attached to the video element, when it is refused the error text says
    so.  Neither the call nor the later settling of a camera request
    touches the stored frames, the score, the visibility of the live feed,
    the scoring interval or the suspended cycles. *)
Theorem switchCamera_keeps_capture_state (s : State) :
  let s' := switchCamera s in
  let requested :=
    mkConstraints (currentFacingMode s') (if isPortrait s then 3 / 4 else 4 / 3)%float in
  (currentFacingMode s = "user" -> currentFacingMode s' = "environment") /\
  (currentFacingMode s <> "user" -> currentFacingMode s' = "user") /\
  currentFacingMode s' <> currentFacingMode s /\
  cameraRequests s' = cameraRequests s ++ [requested] /\
  beforeImageCapture s' = beforeImageCapture s /\
  afterImageCapture s' = afterImageCapture s /\
  similarity s' = similarity s /\
  showLiveFeed s' = showLiveFeed s /\
  intervals s' = intervals s /\
  scoring s' = scoring s /\
  errorMessage s' = errorMessage s /\
  model s' = model s /\
  isModelLoading s' = isModelLoading s /\
  videoRef s' = videoRef s /\
  (cameraRequests s = [] ->
   forall v, videoRef s = Some v ->
   exists s'',
     exec (CameraSettled (Fulfilled tt)) s' = Some s'' /\
     videoRef s''
     = Some (mkVideo (Some requested) (playing v) (videoWidth v) (videoHeight v)
                     (picture v)) /\
     cameraRequests s'' = [] /\
     currentFacingMode s'' = currentFacingMode s' /\
     beforeImageCapture s'' = beforeImageCapture s /\
     afterImageCapture s'' = afterImageCapture s /\
     similarity s'' = similarity s /\
     showLiveFeed s'' = showLiveFeed s /\
     errorMessage s'' = errorMessage s) /\
  (cameraRequests s = [] ->
   forall message,
   exists s'',
     exec (CameraSettled (Failed message)) s' = Some s'' /\
     errorMessage s'' = "Error accessing camera: " +:+ message /\
     videoRef s'' = videoRef s /\
     currentFacingMode s'' = currentFacingMode s' /\
     beforeImageCapture s'' = beforeImageCapture s /\
     afterImageCapture s'' = afterImageCapture s /\
     similarity s'' = similarity s /\
     showLiveFeed s'' = showLiveFeed s) /\
  forall constraints r (t : State),
    let t' := setupCamera_resume constraints r t in
    currentFacingMode t' = currentFacingMode t /\
    beforeImageCapture t' = beforeImageCapture t /\
    afterImageCapture t' = afterImageCapture t /\
    similarity t' = similarity t /\
    showLiveFeed t' = showLiveFeed t /\
    intervals t' = intervals t /\
    scoring t' = scoring t.
Proof.
  unfold switchCamera, setupCamera_begin. state_simpl. cbv zeta.
  assert (Htoggle : toggleFacingMode (currentFacingMode s) <> currentFacingMode s).
  { unfold toggleFacingMode. case_bool_decide as E; [rewrite E; discriminate|congruence]. }
  split; [intros ->; reflexivity|].
  split; [intros Hne; unfold toggleFacingMode; now case_bool_decide|].
  split; [exact Htoggle|].
  repeat (split; [reflexivity|]).
  split; [|split].
  - intros Hq v Hv. eexists. cbn [exec]. state_simpl. rewrite Hq. cbn [app].
    split; [reflexivity|]. unfold setupCamera_resume. state_simpl. rewrite Hv.
    state_simpl. now repeat split.
  - intros Hq message. eexists. cbn [exec]. state_simpl. rewrite Hq. cbn [app].
    split; [reflexivity|]. unfold setupCamera_resume. state_simpl. now repeat split.
  - intros constraints r t. unfold setupCamera_resume.
    destruct r; state_simpl; [|now repeat split].
    destruct (videoRef t); now repeat split.
Qed.

Lemma switchCamera_keeps_capture_state_witness :
  currentFacingMode (switchCamera before_captured_state) = "environment" /\
  exists s'',
    exec (CameraSettled (Fulfilled tt)) (switchCamera before_captured_state) = Some s'' /\
    (srcObject <$> videoRef s'')
    = Some (Some (mkConstraints "environment" (4 / 3)%float)) /\
    beforeImageCapture s'' = beforeImageCapture before_captured_state.
Proof.
  pose proof (switchCamera_keeps_capture_state before_captured_state)
    as (Huser & _ & _ & _ & _ & _ & _ & _ & _ & _ & _ & _ & _ & _ & Hok & _).
  split; [apply Huser; reflexivity|].
  destruct (Hok eq_refl (mkVideo (Some (mkConstraints "user" (4 / 3)%float)) false 2 1
                                 second_picture))
    as (s'' & He & Hv & _ & _ & Hb & _); [vm_compute; reflexivity|].
  exists s''. split; [exact He|]. split; [|exact Hb].
  rewrite Hv. vm_compute. reflexivity.
Defined.

(** *** updateSimilarityScore *)

Lemma captureImage_None (s : State) : captureImage s = None <-> videoRef s = None.
Proof. unfold captureImage. destruct (videoRef s); split; congruence. Qed.

(** *** captureBefore *)

Lemma captureBefore_stores (s : State) (captured : Canvas) :
  captureImage s = Some captured ->
  beforeImageCapture (captureBefore s) = Some captured.
Proof.
  intros E. unfold captureBefore. rewrite E.
  destruct (setBeforeImageCapture_timers (Some captured) s) as (i & n & c & ->).
  state_simpl. now destruct (beforeImageRef s).
Qed.

(** *** The scoring interval *)

Lemma invariant_view (s s' : State) :
  timer_view s' = timer_view s -> invariant s -> invariant s'.
Proof.
  unfold timer_view, invariant, timers_owned, effect_settled, feed_follows_after.
  intros [= -> -> -> -> ->]. trivial.
Qed.

Lemma settled_view (s s' : State) :
  (intervals s', effectCleanup s', beforeImageCapture s', showLiveFeed s')
  = (intervals s, effectCleanup s, beforeImageCapture s, showLiveFeed s) ->
  timers_owned s /\ effect_settled s -> timers_owned s' /\ effect_settled s'.
Proof.
  unfold timers_owned, effect_settled. intros [= -> -> -> ->]. trivial.
Qed.

Lemma isSome_is_Some {A : Type} (o : option A) : isSome o = true <-> is_Some o.
Proof. destruct o; simpl; split; try done; intros []; discriminate. Qed.

(** A run of the effect leaves at most its own interval behind, and one
    exactly when its condition holds. *)
Lemma runEffect_settles (s : State) :
  timers_owned s -> timers_owned (runEffect s) /\ effect_settled (runEffect s).
Proof.
  unfold timers_owned, effect_settled, runEffect, setInterval, clearInterval.
  intros Hown.
  destruct (effectCleanup s) as [old|] eqn:Eold; state_simpl;
    destruct (beforeImageCapture s) as [b|] eqn:Eb, (showLiveFeed s) eqn:Eshow;
    simpl; state_simpl; rewrite ?Eold, ?Eb, ?Eshow.
  all: split;
    [intros id; specialize (Hown id);
     rewrite ?elem_of_union, ?elem_of_difference, ?elem_of_singleton, ?Hown;
     intuition congruence|].
  all: split; [intros [? ?]|intros [[? ?] ?]]; try done; eauto.
Qed.

Lemma runEffect_view (s : State) :
  beforeImageCapture (runEffect s) = beforeImageCapture s /\
  showLiveFeed (runEffect s) = showLiveFeed s /\
  afterImageCapture (runEffect s) = afterImageCapture s.
Proof. open_setters. now state_simpl. Qed.

Lemma setBeforeImageCapture_settles (v : option Canvas) (s : State) :
  timers_owned s -> effect_settled s ->
  timers_owned (setBeforeImageCapture v s) /\ effect_settled (setBeforeImageCapture v s).
Proof.
  intros Hown Hset. unfold setBeforeImageCapture.
  destruct v, (beforeImageCapture s); try (now split); now apply runEffect_settles.
Qed.

Lemma setShowLiveFeed_settles (v : bool) (s : State) :
  timers_owned s -> effect_settled s ->
  timers_owned (setShowLiveFeed v s) /\ effect_settled (setShowLiveFeed v s).
Proof.
  intros Hown Hset. unfold setShowLiveFeed.
  case_bool_decide; [now split|].
  destruct (beforeImageCapture s) eqn:E; simpl; [now apply runEffect_settles|].
  split; [exact Hown|]. unfold effect_settled in *. state_simpl. rewrite E in *.
  split; [intros Hc; apply Hset in Hc as [[? ?] _]; discriminate|].
  intros [[? ?] _]; discriminate.
Qed.

Lemma captureBefore_invariant (s : State) : invariant s -> invariant (captureBefore s).
Proof.
  intros Hinv. unfold captureBefore.
  destruct (captureImage s) as [c|]; [|exact Hinv].
  destruct Hinv as (Hown & Hset & Hfeed).
  destruct (setBeforeImageCapture_settles (Some c) s Hown Hset) as [Hown' Hset'].
  assert (Hfeed' : feed_follows_after (setBeforeImageCapture (Some c) s)).
  { unfold feed_follows_after in *. open_setters. now state_simpl. }
  destruct (beforeImageRef _); exact (conj Hown' (conj Hset' Hfeed')).
Qed.

Lemma updateSimilarityScore_view (s : State) :
  timer_view (snd (updateSimilarityScore s)) = timer_view s.
Proof.
  unfold updateSimilarityScore.
  destruct (beforeImageCapture s), (captureImage s), (model s); reflexivity.
Qed.

Lemma captureAfter_stores (s : State) :
  captureAfter_succeeds s ->
  exists captured,
    captureImage s = Some captured /\
    afterImageCapture (captureAfter s) = Some captured /\
    beforeImageCapture (captureAfter s) = beforeImageCapture s /\
    showLiveFeed (captureAfter s) = false.
Proof.
  intros ([b Hb] & [m Hm] & [v Hv]). unfold captureAfter, captureImage.
  rewrite Hb, Hm, Hv. simpl. eexists; split; [reflexivity|].
  unfold updateSimilarityScore, captureImage. state_simpl. rewrite Hb, Hv, Hm.
  cbn [snd]. open_setters. now state_simpl.
Qed.

Lemma captureAfter_invariant (s : State) : invariant s -> invariant (captureAfter s).
Proof.
  intros Hinv. unfold captureAfter.
  destruct (negb _ || negb _); [exact Hinv|].
  destruct (captureImage s) as [c|]; [|exact Hinv].
  destruct Hinv as (Hown & Hset & Hfeed).
  remember (snd (updateSimilarityScore (setAfterImageCapture (Some c) s))) as s2 eqn:E2.
  assert (Hv : timer_view s2 = (intervals s, effectCleanup s, beforeImageCapture s,
                                 showLiveFeed s, Some c)).
  { subst s2. now rewrite updateSimilarityScore_view. }
  injection Hv as Hi Hc Hb Hsh Ha.
  destruct (settled_view s s2) as [Hown2 Hset2]; [congruence|now split|].
  destruct (setShowLiveFeed_settles false s2 Hown2 Hset2) as [Hown' Hset'].
  split; [exact Hown'|]. split; [exact Hset'|].
  unfold feed_follows_after. open_setters. state_simpl. now rewrite Ha.
Qed.

Lemma reset_invariant (s : State) : invariant s -> invariant (reset s).
Proof.
  intros (Hown & Hset & Hfeed). unfold reset.
  pose proof (setBeforeImageCapture_settles None s Hown Hset) as H1.
  remember (setBeforeImageCapture None s) as s1 eqn:E1.
  remember (setSimilarity 0%float _) as s4 eqn:E4.
  assert (Hv : timer_view s4 = (intervals s1, effectCleanup s1, beforeImageCapture s1,
                                 showLiveFeed s1, None)).
  { subst s4. now destruct (beforeImageRef _). }
  injection Hv as Hi Hc Hb Hsh Ha.
  destruct (settled_view s1 s4) as [Hown4 Hset4]; [congruence|exact H1|].
  destruct (setShowLiveFeed_settles true s4 Hown4 Hset4) as [Hown' Hset'].
  split; [exact Hown'|]. split; [exact Hset'|].
  unfold feed_follows_after. open_setters. state_simpl. now rewrite Ha.
Qed.

Lemma switchCamera_view (s : State) : timer_view (switchCamera s) = timer_view s.
Proof. reflexivity. Qed.

Lemma click_invariant (b : Button) (s : State) : invariant s -> invariant (click b s).
Proof.
  intros Hinv. unfold click. destruct (rendered b s && negb (disabled b s)); [|exact Hinv].
  destruct b; simpl.
  - now apply captureBefore_invariant.
  - now apply captureAfter_invariant.
  - now apply reset_invariant.
  - exact (invariant_view _ _ (switchCamera_view s) Hinv).
Qed.

Lemma setIsModelLoading_view (v : bool) (s : State) :
  timer_view (setIsModelLoading v s) = timer_view s.
Proof.
  unfold setIsModelLoading. case_bool_decide; [reflexivity|]. now destruct v.
Qed.

Lemma exec_view (e : Event) (s s' : State) :
  (forall b, e <> Click b) -> exec e s = Some s' -> timer_view s' = timer_view s.
Proof.
  intros Hclick. destruct e as [b|id|n r|r|r| |w h px|p]; cbn [exec].
  - now destruct (Hclick b).
  - case_bool_decide; [|discriminate]. intros [= <-]. apply updateSimilarityScore_view.
  - destruct (scoring s !! n); [|discriminate]. intros [= <-].
    destruct r as [[eb ec]|msg]; reflexivity.
  - destruct (cameraRequests s) as [|c rest]; [discriminate|]. intros [= <-].
    destruct r; [|reflexivity]. unfold setupCamera_resume. state_simpl.
    now destruct (videoRef s).
  - destruct (modelRequest s); [|discriminate]. intros [= <-].
    destruct r; unfold loadModel_resume; now rewrite setIsModelLoading_view.
  - destruct (videoRef s) as [v|] eqn:E; [|discriminate].
    destruct (isSome (srcObject v)); [|discriminate]. intros [= <-].
    unfold onloadedmetadata. now rewrite E.
  - unfold videoFrame. destruct (videoRef s) as [v|]; [|discriminate].
    destruct (srcObject v); [|discriminate]. now intros [= <-].
  - now intros [= <-].
Qed.

Lemma exec_invariant (e : Event) (s s' : State) :
  exec e s = Some s' -> invariant s -> invariant s'.
Proof.
  destruct e as [b| | | | | | |];
    try (intros He; apply invariant_view; eapply exec_view; [|exact He]; discriminate).
  intros [= <-]. apply click_invariant.
Qed.

Lemma run_invariant (events : list Event) : forall s s',
  run events s = Some s' -> invariant s -> invariant s'.
Proof.
  induction events as [|e events IH]; intros s s'; simpl.
  - now intros [= <-].
  - destruct (exec e s) as [s1|] eqn:E; [|discriminate].
    intros Hrun Hinv. eapply IH; [exact Hrun|]. eapply exec_invariant; eauto.
Qed.

Lemma mount_invariant (portrait mobile : bool) : invariant (mount portrait mobile).
Proof.
  assert (Hi : intervals (mount portrait mobile) = ∅) by reflexivity.
  assert (Hc : effectCleanup (mount portrait mobile) = None) by reflexivity.
  assert (Hb : beforeImageCapture (mount portrait mobile) = None) by reflexivity.
  unfold invariant, timers_owned, effect_settled, feed_follows_after.
  rewrite Hi, Hc, Hb. split; [|split; [|reflexivity]].
  - intros id. rewrite elem_of_empty. intuition congruence.
  - split; [intros [? ?]|intros [[? ?] _]]; discriminate.
Qed.

Lemma reachable_invariant (s : State) : reachable s -> invariant s.
Proof.
  intros (portrait & mobile & events & Hrun).
  eapply run_invariant; [exact Hrun|apply mount_invariant].
Qed.

(** No interval is active while the live feed is hidden. *)
Lemma frozen_no_timer (s : State) :
  frozen s -> intervals s = ∅ /\ forall id, exec (Tick id) s = None.
Proof.
  intros ((Hown & Hset & Hfeed) & _ & [a Ha]).
  assert (Hc : effectCleanup s = None).
  { destruct (effectCleanup s) eqn:E; [|reflexivity].
    destruct Hset as [Hset _]. destruct Hset as [_ Hshow]; [eauto|].
    unfold feed_follows_after in Hfeed. rewrite Ha, Hshow in Hfeed. discriminate. }
  assert (He : intervals s = ∅).
  { apply set_eq. intros id. rewrite (Hown id), Hc. set_solver. }
  split; [exact He|]. intros id. cbn [exec]. rewrite He.
  case_bool_decide as Hin; [set_solver|reflexivity].
Qed.

(** A timer can fire only in the BeforeCaptured phase. *)
Lemma tick_only_while_scorable (s : State) (id : nat) :
  invariant s -> exec (Tick id) s <> None -> phase s = BeforeCaptured.
Proof.
  intros (Hown & Hset & Hfeed). cbn [exec]. case_bool_decide as Hin; [intros _|congruence].
  apply Hown in Hin. destruct Hset as [Hset _].
  destruct Hset as [[b Hb] Hshow]; [eauto|].
  unfold feed_follows_after in Hfeed. unfold phase. rewrite Hb.
  destruct (afterImageCapture s); [|reflexivity].
  rewrite Hshow in Hfeed. discriminate.
Qed.

Lemma frozen_step (e : Event) (s s' : State) :
  frozen s -> e <> Click ResetButton -> exec e s = Some s' -> frozen s'.
Proof.
  intros (Hinv & Hb & Ha) Hreset He.
  split; [eapply exec_invariant; eauto|].
  destruct e as [b|id|n r|r|r| |w h px|p];
    try (apply exec_view in He; [|discriminate];
         injection He as _ _ -> _ ->; now split).
  injection He as <-. unfold click.
  destruct b; try congruence; unfold rendered, disabled.
  - rewrite (proj2 (isSome_is_Some _) Hb). simpl. rewrite andb_false_r. now split.
  - rewrite (proj2 (isSome_is_Some _) Ha), orb_true_r. simpl.
    rewrite andb_false_r. now split.
  - destruct (_ && _); now split.
Qed.

Lemma frozen_run (events : list Event) : forall s s',
  frozen s ->
  Forall (fun e => e <> Click ResetButton) events ->
  run events s = Some s' ->
  frozen s' /\ Forall (fun e => forall id, e <> Tick id) events.
Proof.
  induction events as [|e events IH]; intros s s' Hfr Hnr; simpl.
  - intros [= <-]. now split.
  - destruct (exec e s) as [s1|] eqn:E; [|discriminate]. intros Hrun.
    apply Forall_cons in Hnr as [Hne Hnr].
    destruct (IH s1 s' (frozen_step e s s1 Hfr Hne E) Hnr Hrun) as [Hfr' Hticks].
    split; [exact Hfr'|]. constructor; [|exact Hticks].
    intros id ->. destruct (frozen_no_timer s Hfr) as [_ Hno].
    rewrite Hno in E. discriminate.
Qed.

(** C4: once [captureAfter] has stored an after-frame, the interval of the
    scoring effect is cleared within the same step, and until [reset] is
    pressed no timer step is enabled: whatever happens next (presses,
    promises settling, new pictures), the phase stays AfterCaptured, no
    event of the run is a tick and none can follow it.  More generally, in
    every reachable state a timer step is enabled only in the
    BeforeCaptured phase. *)
Theorem no_tick_after_captureAfter
        (s s' : State) (events : list Event) (id : nat) :
  reachable s ->
  captureAfter_succeeds s ->
  Forall (fun e => e <> Click ResetButton) events ->
  run events (captureAfter s) = Some s' ->
  intervals (captureAfter s) = ∅ /\
  phase s' = AfterCaptured /\
  Forall (fun e => forall id', e <> Tick id') events /\
  exec (Tick id) s' = None /\
  (forall t id', reachable t -> exec (Tick id') t <> None -> phase t = BeforeCaptured).
Proof.
  intros Hreach Hok Hnr Hrun.
  pose proof (reachable_invariant s Hreach) as Hinv.
  assert (Hfr : frozen (captureAfter s)).
  { split; [now apply captureAfter_invariant|].
    destruct (captureAfter_stores s Hok) as (c & _ & Ha & Hb & _).
    rewrite Ha, Hb. split; [apply Hok|eauto]. }
  destruct (frozen_run events _ _ Hfr Hnr Hrun) as [Hfr' Hticks].
  split; [apply (frozen_no_timer _ Hfr)|].
  split; [|split; [exact Hticks|split; [apply (frozen_no_timer _ Hfr')|]]].
  - destruct Hfr' as (_ & [b Hb] & [a Ha]). unfold phase. now rewrite Hb, Ha.
  - intros t id' Ht. apply tick_only_while_scorable. now apply reachable_invariant.
Qed.

(** *** Sample runs *)

Lemma before_captured_reachable : reachable before_captured_state.
Proof.
  exists false, true, before_captured_events.
  unfold before_captured_state, state_after.
  now destruct (run before_captured_events (mount false true)) eqn:E;
    [|vm_compute in E].
Qed.

(** C2, at the failing input: the model load fails right after mounting.
    The loading flag is cleared, the error text is set and [captureAfter]
    is refused; but the Capture Before button is enabled, a press stores a
    before-frame and starts the scoring interval, and every tick then
    throws at [model.predict]. *)
Theorem captureBefore_after_failed_load (portrait mobile : bool) (message : string) :
  let s := load_failed_state portrait mobile message in
  exec (ModelSettled (Failed message)) (mount portrait mobile) = Some s /\
  isModelLoading s = false /\
  errorMessage s = "Error loading model: " +:+ message /\
  errorMessage s <> "" /\
  model s = None /\
  captureAfter s = s /\
  click CaptureAfterButton s = s /\
  disabled CaptureBeforeButton s = false /\
  beforeImageCapture (click CaptureBeforeButton s) = Some (mkCanvas 0 0 []) /\
  beforeImageCapture (captureBefore s) = Some (mkCanvas 0 0 []) /\
  1 ∈ intervals (click CaptureBeforeButton s) /\
  exec (Tick 1) (click CaptureBeforeButton s) = Some (click CaptureBeforeButton s) /\
  fst (updateSimilarityScore (click CaptureBeforeButton s)) = Threw.
Proof.
  repeat (split; [vm_compute; try reflexivity; discriminate|]).
  vm_compute. reflexivity.
Qed.

Lemma captureAfter_refused_witness :
  (beforeImageCapture (mount false true) = None \/ model (mount false true) = None) /\
  captureAfter (mount false true) = mount false true.
Proof.
  split; [now left|]. apply (captureAfter_refused (mount false true)). now left.
Defined.

Lemma captureAfter_succeeds_sample : captureAfter_succeeds before_captured_state.
Proof. repeat split; eexists; reflexivity. Qed.

Lemma no_tick_after_captureAfter_witness :
  intervals (captureAfter before_captured_state) = ∅ /\
  phase (state_after (before_captured_events ++ [Click CaptureAfterButton; Resize true]))
  = AfterCaptured /\
  exec (Tick 1)
       (state_after (before_captured_events ++ [Click CaptureAfterButton; Resize true]))
  = None.
Proof.
  destruct (no_tick_after_captureAfter
              before_captured_state
              (state_after (before_captured_events ++ [Click CaptureAfterButton; Resize true]))
              [Resize true] 1) as (Hi & Hp & _ & Ht & _).
  - exact before_captured_reachable.
  - exact captureAfter_succeeds_sample.
  - repeat constructor. discriminate.
  - vm_compute. reflexivity.
  - exact (conj Hi (conj Hp Ht)).
Defined.

(** * Further properties of the component *)

(** ** What the handlers leave alone *)

Lemma captureBefore_frame (s : State) :
  (videoRef (captureBefore s), model (captureBefore s), errorMessage (captureBefore s),
   isModelLoading (captureBefore s), modelRequest (captureBefore s),
   currentFacingMode (captureBefore s), afterImageCapture (captureBefore s),
   similarity (captureBefore s), scoring (captureBefore s))
  = (videoRef s, model s, errorMessage s, isModelLoading s, modelRequest s,
     currentFacingMode s, afterImageCapture s, similarity s, scoring s).
Proof.
  unfold captureBefore. destruct (captureImage s); [|reflexivity].
  open_setters. state_simpl. now destruct (beforeImageRef s).
Qed.

Lemma updateSimilarityScore_scoring (s : State) :
  exists q, snd (updateSimilarityScore s) = with_scoring q s.
Proof.
  exists (scoring (snd (updateSimilarityScore s))). unfold updateSimilarityScore.
  destruct (beforeImageCapture s), (captureImage s), (model s); now destruct s.
Qed.

Lemma captureAfter_frame (s : State) :
  (videoRef (captureAfter s), model (captureAfter s), errorMessage (captureAfter s),
   isModelLoading (captureAfter s), modelRequest (captureAfter s),
   currentFacingMode (captureAfter s), beforeImageCapture (captureAfter s),
   similarity (captureAfter s))
  = (videoRef s, model s, errorMessage s, isModelLoading s, modelRequest s,
     currentFacingMode s, beforeImageCapture s, similarity s).
Proof.
  unfold captureAfter. destruct (negb _ || negb _); [reflexivity|].
  destruct (captureImage s) as [c|]; [|reflexivity].
  open_setters.
  match goal with |- context [snd (updateSimilarityScore ?t)] =>
    destruct (updateSimilarityScore_scoring t) as [q ->] end.
  reflexivity.
Qed.

Lemma reset_frame (s : State) :
  (videoRef (reset s), model (reset s), errorMessage (reset s),
   isModelLoading (reset s), modelRequest (reset s), currentFacingMode (reset s),
   scoring (reset s))
  = (videoRef s, model s, errorMessage s, isModelLoading s, modelRequest s,
     currentFacingMode s, scoring s).
Proof.
  unfold reset. open_setters. state_simpl. now destruct (beforeImageRef s).
Qed.

(** A press never touches the video element, the model, the error text or
    the loading state. *)
Lemma click_frame (b : Button) (s : State) :
  (videoRef (click b s), model (click b s), errorMessage (click b s),
   isModelLoading (click b s), modelRequest (click b s))
  = (videoRef s, model s, errorMessage s, isModelLoading s, modelRequest s).
Proof.
  unfold click. destruct (rendered b s && negb (disabled b s)); [|reflexivity].
  destruct b; cbn [onClick].
  - pose proof (captureBefore_frame s) as E. now injection E as -> -> -> -> ->.
  - pose proof (captureAfter_frame s) as E. now injection E as -> -> -> -> ->.
  - pose proof (reset_frame s) as E. now injection E as -> -> -> -> ->.
  - reflexivity.
Qed.

(** Induction over the runs from [mount]. *)
Lemma reachable_ind (P : State -> Prop) :
  (forall portrait mobile, P (mount portrait mobile)) ->
  (forall e s s', reachable s -> P s -> exec e s = Some s' -> P s') ->
  forall s, reachable s -> P s.
Proof.
  intros Hmount Hstep s (portrait & mobile & events & Hrun).
  revert s Hrun. induction events as [|e events IH] using rev_ind; intros s Hrun.
  - injection Hrun as <-. apply Hmount.
  - assert (Happ : forall l1 l2 t, run (l1 ++ l2) t
                     = match run l1 t with Some t' => run l2 t' | None => None end).
    { induction l1 as [|x l1 IHl]; intros l2 t; simpl; [reflexivity|].
      destruct (exec x t); [apply IHl|reflexivity]. }
    rewrite Happ in Hrun.
    destruct (run events (mount portrait mobile)) as [s0|] eqn:E0; [|discriminate].
    simpl in Hrun. destruct (exec e s0) as [s1|] eqn:E1; [|discriminate].
    injection Hrun as <-.
    apply (Hstep e s0 s1); [now exists portrait, mobile, events|now apply IH|exact E1].
Qed.

(** ** The model load *)

Lemma setIsModelLoading_false (s : State) : isModelLoading (setIsModelLoading false s) = false.
Proof.
  unfold setIsModelLoading. case_bool_decide as E; [now rewrite <- E|reflexivity].
Qed.

Lemma setIsModelLoading_frame (v : bool) (s : State) :
  (model (setIsModelLoading v s), errorMessage (setIsModelLoading v s),
   modelRequest (setIsModelLoading v s), currentFacingMode (setIsModelLoading v s),
   similarity (setIsModelLoading v s), scoring (setIsModelLoading v s))
  = (model s, errorMessage s, modelRequest s, currentFacingMode s, similarity s, scoring s).
Proof.
  unfold setIsModelLoading. case_bool_decide; [reflexivity|]. now destruct v.
Qed.

(** Once no load is pending, no step changes the model or the loading
    flag, and none starts a load. *)
Ltac finish_frame :=
  repeat split; try (intros; discriminate); simpl; congruence.

Lemma exec_after_load (e : Event) (s s' : State) :
  modelRequest s = false -> exec e s = Some s' ->
  modelRequest s' = false /\ model s' = model s /\ isModelLoading s' = isModelLoading s
  /\ forall r, e <> ModelSettled r.
Proof.
  intros Hreq. destruct e as [b|id|n r|r|r| |w h px|p]; cbn [exec].
  - intros [= <-]. pose proof (click_frame b s) as E. injection E as _ -> _ -> ->.
    finish_frame.
  - case_bool_decide; [|discriminate]. intros [= <-].
    destruct (updateSimilarityScore_scoring s) as [q ->]. finish_frame.
  - destruct (scoring s !! n); [|discriminate]. intros [= <-].
    destruct r as [[eb ec]|msg]; finish_frame.
  - destruct (cameraRequests s) as [|c rest]; [discriminate|]. intros [= <-].
    destruct r; unfold setupCamera_resume; state_simpl; [|finish_frame].
    destruct (videoRef s); finish_frame.
  - rewrite Hreq. discriminate.
  - destruct (videoRef s) as [v|] eqn:E; [|discriminate].
    destruct (isSome (srcObject v)); [|discriminate]. intros [= <-].
    unfold onloadedmetadata. rewrite E. finish_frame.
  - unfold videoFrame. destruct (videoRef s) as [v|]; [|discriminate].
    destruct (srcObject v); [|discriminate]. intros [= <-]. finish_frame.
  - intros [= <-]. finish_frame.
Qed.

Lemma run_after_load (events : list Event) : forall s s',
  modelRequest s = false -> run events s = Some s' ->
  modelRequest s' = false /\ model s' = model s /\ isModelLoading s' = isModelLoading s
  /\ Forall (fun e => forall r, e <> ModelSettled r) events.
Proof.
  induction events as [|e events IH]; intros s s' Hreq; simpl.
  - intros [= <-]. now repeat split.
  - destruct (exec e s) as [s1|] eqn:E; [|discriminate]. intros Hrun.
    destruct (exec_after_load e s s1 Hreq E) as (Hreq1 & Hm1 & Hl1 & Hne).
    destruct (IH s1 s' Hreq1 Hrun) as (Hreq' & Hm' & Hl' & Hall).
    repeat split; try congruence. now constructor.
Qed.

(** X1: the model load settles once and for all.  After [loadModel] has
    settled, with a model or with an error, the loading flag is false and
    no later event changes it or the model, and the load never settles a
    second time; so when the load failed, [captureAfter] is refused in every
    later state: nothing in the component retries the load. *)
Theorem model_load_is_final
        (r : Settled LayersModel) (s s1 s' : State) (events : list Event) :
  exec (ModelSettled r) s = Some s1 ->
  run events s1 = Some s' ->
  isModelLoading s1 = false /\
  isModelLoading s' = false /\
  model s' = model s1 /\
  Forall (fun e => forall r', e <> ModelSettled r') events /\
  (forall r', exec (ModelSettled r') s' = None) /\
  (model s1 = None -> captureAfter s' = s' /\ click CaptureAfterButton s' = s').
Proof.
  cbn [exec]. destruct (modelRequest s); [|discriminate]. intros [= <-] Hrun.
  set (s1 := loadModel_resume r (with_modelRequest false s)) in *.
  assert (Hl1 : isModelLoading s1 = false).
  { unfold s1, loadModel_resume. destruct r; apply setIsModelLoading_false. }
  assert (Hreq1 : modelRequest s1 = false).
  { unfold s1, loadModel_resume.
    destruct r; pose proof (setIsModelLoading_frame false) as E;
      match goal with |- modelRequest (setIsModelLoading false ?t) = _ =>
        specialize (E t); now injection E as _ _ -> _ _ _ end. }
  destruct (run_after_load events s1 s' Hreq1 Hrun) as (Hreq' & Hm' & Hl' & Hall).
  split; [exact Hl1|]. split; [congruence|]. split; [exact Hm'|]. split; [exact Hall|].
  split; [intros r'; cbn [exec]; now rewrite Hreq'|].
  intros Hnone. rewrite <- Hm' in Hnone.
  assert (Hca : captureAfter s' = s').
  { unfold captureAfter. rewrite Hnone. simpl. now rewrite orb_true_r. }
  split; [exact Hca|]. unfold click.
  destruct (rendered _ s' && negb _); [exact Hca|reflexivity].
Qed.

Lemma model_load_is_final_witness :
  isModelLoading
    (state_after [ModelSettled (Failed "offline"); Click CaptureBeforeButton]) = false /\
  captureAfter (state_after [ModelSettled (Failed "offline"); Click CaptureBeforeButton])
  = state_after [ModelSettled (Failed "offline"); Click CaptureBeforeButton].
Proof.
  destruct (model_load_is_final
              (Failed "offline") (mount false true)
              (load_failed_state false true "offline")
              (state_after [ModelSettled (Failed "offline"); Click CaptureBeforeButton])
              [Click CaptureBeforeButton]) as (_ & Hl & _ & _ & _ & Hca).
  - vm_compute. reflexivity.
  - vm_compute. reflexivity.
  - destruct Hca as [Hca _]; [vm_compute; reflexivity|]. exact (conj Hl Hca).
Defined.

(** ** The error text *)

Lemma exec_errorMessage (e : Event) (s s' : State) :
  exec e s = Some s' ->
  errorMessage s' = errorMessage s \/
  exists message,
    errorMessage s' = "Error accessing camera: " +:+ message \/
    errorMessage s' = "Error loading model: " +:+ message.
Proof.
  destruct e as [b|id|n r|r|r| |w h px|p]; cbn [exec].
  - intros [= <-]. left. pose proof (click_frame b s) as E. now injection E as _ _ -> _ _.
  - case_bool_decide; [|discriminate]. intros [= <-].
    destruct (updateSimilarityScore_scoring s) as [q ->]. now left.
  - destruct (scoring s !! n); [|discriminate]. intros [= <-].
    destruct r as [[eb ec]|msg]; now left.
  - destruct (cameraRequests s) as [|c rest]; [discriminate|]. intros [= <-].
    destruct r as [u|msg]; unfold setupCamera_resume; state_simpl.
    + left. now destruct (videoRef s).
    + right. exists msg. now left.
  - destruct (modelRequest s); [|discriminate]. intros [= <-].
    unfold loadModel_resume.
    destruct r as [m|msg];
      match goal with |- context [setIsModelLoading false ?t] =>
        pose proof (setIsModelLoading_frame false t) as E; injection E as _ -> _ _ _ _ end.
    + now left.
    + right. exists msg. now right.
  - destruct (videoRef s) as [v|] eqn:E; [|discriminate].
    destruct (isSome (srcObject v)); [|discriminate]. intros [= <-].
    unfold onloadedmetadata. rewrite E. now left.
  - unfold videoFrame. destruct (videoRef s) as [v|]; [|discriminate].
    destruct (srcObject v); [|discriminate]. intros [= <-]. now left.
  - intros [= <-]. now left.
Qed.

(** X2: an error text, once shown, is never taken back: no handler writes
    the empty string to [errorMessage], so after a failed camera request or
    model load the text stays through every later event, a successful
    [switchCamera] and [reset] included. *)
Theorem errorMessage_never_cleared (events : list Event) (s s' : State) :
  errorMessage s <> "" ->
  run events s = Some s' ->
  errorMessage s' <> "".
Proof.
  revert s. induction events as [|e events IH]; intros s Herr; simpl.
  - now intros [= <-].
  - destruct (exec e s) as [s1|] eqn:E; [|discriminate]. apply IH.
    destruct (exec_errorMessage e s s1 E) as [-> | [msg [-> | ->]]];
      [exact Herr|discriminate|discriminate].
Qed.

Lemma errorMessage_never_cleared_witness :
  errorMessage (load_failed_state false true "offline") <> "" /\
  errorMessage
    (state_after [ModelSettled (Failed "offline"); CameraSettled (Fulfilled tt);
                  Click CaptureBeforeButton; Click ResetButton]) <> "".
Proof.
  assert (H0 : errorMessage (load_failed_state false true "offline") <> "")
    by (vm_compute; discriminate).
  split; [exact H0|].
  apply (errorMessage_never_cleared
           [CameraSettled (Fulfilled tt); Click CaptureBeforeButton; Click ResetButton]
           (load_failed_state false true "offline")); [exact H0|].
  vm_compute. reflexivity.
Defined.

(** ** The video element *)

Lemma click_while_loading (b : Button) (s : State) :
  isModelLoading s = true -> click b s = s.
Proof. intros E. unfold click, rendered. rewrite E. now destruct b. Qed.

Lemma view_mounted_step (e : Event) (s s' : State) :
  view_mounted s -> exec e s = Some s' -> view_mounted s'.
Proof.
  unfold view_mounted. intros [Hload Hready].
  destruct e as [b|id|n r|r|r| |w h px|p]; cbn [exec].
  - intros [= <-]. destruct (isModelLoading s) eqn:El.
    + rewrite (click_while_loading b s El), El. split; [exact Hload|discriminate].
    + pose proof (click_frame b s) as E. injection E as -> _ _ -> _.
      rewrite El. split; [discriminate|exact Hready].
  - case_bool_decide; [|discriminate]. intros [= <-].
    destruct (updateSimilarityScore_scoring s) as [q ->]. now split.
  - destruct (scoring s !! n); [|discriminate]. intros [= <-].
    destruct r as [[eb ec]|msg]; now split.
  - destruct (cameraRequests s) as [|c rest]; [discriminate|]. intros [= <-].
    destruct r as [u|msg]; unfold setupCamera_resume; state_simpl; [|now split].
    destruct (videoRef s) eqn:Ev; state_simpl; [|now rewrite Ev].
    split; [intros El; destruct (Hload El) as [? _]; discriminate|eauto].
  - destruct (modelRequest s); [|discriminate]. intros [= <-].
    assert (Hgen : forall t, (isModelLoading t = true ->
                                videoRef t = None /\ beforeImageRef t = None
                                /\ beforeImageCapture t = None) ->
                             (isModelLoading t = false -> is_Some (videoRef t)) ->
                             (isModelLoading (setIsModelLoading false t) = true ->
                              videoRef (setIsModelLoading false t) = None
                              /\ beforeImageRef (setIsModelLoading false t) = None
                              /\ beforeImageCapture (setIsModelLoading false t) = None)
                             /\ (isModelLoading (setIsModelLoading false t) = false ->
                                 is_Some (videoRef (setIsModelLoading false t)))).
    { intros t Hl Hr. rewrite setIsModelLoading_false. split; [discriminate|]. intros _.
      unfold setIsModelLoading. case_bool_decide as E; [now apply Hr|]. state_simpl. eauto. }
    unfold loadModel_resume. destruct r; apply Hgen; assumption.
  - destruct (videoRef s) as [v|] eqn:E; [|discriminate].
    destruct (isSome (srcObject v)); [|discriminate]. intros [= <-].
    unfold onloadedmetadata. rewrite E. state_simpl.
    split; [intros El; destruct (Hload El) as [? _]; congruence|eauto].
  - unfold videoFrame. destruct (videoRef s) as [v|] eqn:E; [|discriminate].
    destruct (srcObject v); [|discriminate]. intros [= <-]. state_simpl.
    split; [intros El; destruct (Hload El) as [? _]; congruence|eauto].
  - intros [= <-]. now split.
Qed.

Lemma reachable_view_mounted (s : State) : reachable s -> view_mounted s.
Proof.
  apply reachable_ind.
  - intros portrait mobile. split; [now repeat split|discriminate].
  - intros e t t' _. apply view_mounted_step.
Qed.

(** X3: while the model is loading nothing can be captured: the video
    element is part of the view that replaces the loading indicator, so
    [videoRef] is still undefined, [captureImage] returns [null], and
    [captureBefore], a scoring cycle and every button press leave the state
    as it is. *)
Theorem nothing_captured_while_loading (s : State) :
  reachable s ->
  isModelLoading s = true ->
  videoRef s = None /\
  captureImage s = None /\
  captureBefore s = s /\
  updateSimilarityScore s = (Returned, s) /\
  phase s = Live /\
  forall b, click b s = s.
Proof.
  intros Hreach El.
  destruct (reachable_view_mounted s Hreach) as [Hload _].
  destruct (Hload El) as (Hv & _ & Hb).
  assert (Hc : captureImage s = None) by (unfold captureImage; now rewrite Hv).
  split; [exact Hv|]. split; [exact Hc|].
  split; [unfold captureBefore; now rewrite Hc|].
  split; [unfold updateSimilarityScore; now rewrite Hb|].
  split; [unfold phase; now rewrite Hb|].
  intros b. now apply click_while_loading.
Qed.

Lemma mount_reachable (portrait mobile : bool) : reachable (mount portrait mobile).
Proof. now exists portrait, mobile, []. Qed.

Lemma nothing_captured_while_loading_witness :
  isModelLoading (mount false true) = true /\
  captureBefore (mount false true) = mount false true.
Proof.
  split; [reflexivity|].
  destruct (nothing_captured_while_loading (mount false true)) as (_ & _ & H & _).
  - apply mount_reachable.
  - reflexivity.
  - exact H.
Defined.

(** X4: a camera stream granted while the model is still loading is lost.
    [setupCamera] attaches the stream only [if (videoRef)], and the video
    element does not exist yet; when the model load then settles, the
    element is created without a stream, no request is left pending to
    attach one, and no picture can arrive before [switchCamera] asks
    again. *)
Theorem stream_lost_while_loading
        (s s1 s2 : State) (r : Settled LayersModel) :
  reachable s ->
  isModelLoading s = true ->
  exec (CameraSettled (Fulfilled tt)) s = Some s1 ->
  exec (ModelSettled r) s1 = Some s2 ->
  videoRef s1 = None /\
  videoRef s2 = Some (mkVideo None false 0 0 []) /\
  (forall w h px, exec (VideoFrame w h px) s2 = None) /\
  exec LoadedMetadata s2 = None /\
  captureImage s2 = Some (mkCanvas 0 0 []).
Proof.
  intros Hreach El Hcam Hmodel.
  destruct (reachable_view_mounted s Hreach) as [Hload _].
  destruct (Hload El) as (Hv & _ & _).
  assert (H1 : videoRef s1 = None /\ isModelLoading s1 = true).
  { cbn [exec] in Hcam. destruct (cameraRequests s) as [|c rest]; [discriminate|].
    injection Hcam as <-. unfold setupCamera_resume. state_simpl.
    rewrite Hv. state_simpl. now split. }
  destruct H1 as [Hv1 El1].
  assert (E : videoRef s2 = Some (mkVideo None false 0 0 [])).
  { cbn [exec] in Hmodel. destruct (modelRequest s1); [|discriminate].
    injection Hmodel as <-.
    assert (Hv2 : forall t, isModelLoading t = true ->
                    videoRef (setIsModelLoading false t)
                    = Some (mkVideo None false 0 0 [])).
    { intros t Ht. unfold setIsModelLoading. rewrite Ht. reflexivity. }
    unfold loadModel_resume. destruct r; apply Hv2; exact El1. }
  split; [exact Hv1|]. split; [exact E|]. split; [|split].
  - intros w h px. cbn [exec]. unfold videoFrame. now rewrite E.
  - cbn [exec]. now rewrite E.
  - unfold captureImage. now rewrite E.
Qed.

Lemma stream_lost_while_loading_witness :
  videoRef
    (state_after [CameraSettled (Fulfilled tt); ModelSettled (Fulfilled Mobilenet)])
  = Some (mkVideo None false 0 0 []).
Proof.
  destruct (stream_lost_while_loading
              (mount false true)
              (state_after [CameraSettled (Fulfilled tt)])
              (state_after [CameraSettled (Fulfilled tt); ModelSettled (Fulfilled Mobilenet)])
              (Fulfilled Mobilenet)) as (_ & H & _).
  - apply mount_reachable.
  - reflexivity.
  - vm_compute. reflexivity.
  - vm_compute. reflexivity.
  - exact H.
Defined.

(** ** The scoring interval and the phases *)

(** X5: the scoring interval runs exactly in the BeforeCaptured phase.  In
    every reachable state at most one interval timer is active, and one is
    active if and only if a before-frame is stored and no after-frame is:
    intervals are never leaked, and none is missing while the live
    comparison is on. *)
Theorem interval_iff_BeforeCaptured (s : State) :
  reachable s ->
  (forall id1 id2, id1 ∈ intervals s -> id2 ∈ intervals s -> id1 = id2) /\
  ((exists id, id ∈ intervals s) <-> phase s = BeforeCaptured) /\
  ((exists id, exec (Tick id) s <> None) <-> phase s = BeforeCaptured).
Proof.
  intros Hreach. destruct (reachable_invariant s Hreach) as (Hown & Hset & Hfeed).
  assert (Hiff : (exists id, id ∈ intervals s) <-> phase s = BeforeCaptured).
  { unfold phase, feed_follows_after in *. split.
    - intros [id Hid]. apply Hown in Hid.
      destruct Hset as [Hset _]. destruct Hset as [[b Hb] Hshow]; [eauto|].
      rewrite Hb. destruct (afterImageCapture s); [|reflexivity].
      rewrite Hshow in Hfeed. discriminate.
    - destruct (beforeImageCapture s) as [b|] eqn:Eb; [|discriminate].
      destruct (afterImageCapture s) eqn:Ea; [discriminate|]. intros _.
      destruct Hset as [_ Hset]. destruct Hset as [id Hid]; [split; eauto|].
      exists id. now apply Hown. }
  split; [|split; [exact Hiff|]].
  - intros id1 id2 H1 H2. apply Hown in H1, H2. congruence.
  - rewrite <- Hiff. split; intros [id Hid]; exists id; cbn [exec] in *;
      case_bool_decide; congruence.
Qed.

Lemma interval_iff_BeforeCaptured_witness :
  phase before_captured_state = BeforeCaptured /\
  exists id, id ∈ intervals before_captured_state.
Proof.
  destruct (interval_iff_BeforeCaptured before_captured_state) as (_ & [_ H] & _).
  - exact before_captured_reachable.
  - split; [reflexivity|]. apply H. reflexivity.
Defined.

Lemma reset_result (s : State) :
  beforeImageCapture (reset s) = None /\
  afterImageCapture (reset s) = None /\
  similarity (reset s) = 0%float /\
  showLiveFeed (reset s) = true /\
  beforeImageRef (reset s)
  = match beforeImageRef s with
    | Some img => Some (mkImg (img_src img) "none")
    | None => None
    end.
Proof.
  unfold reset. open_setters. state_simpl.
  destruct (beforeImageRef s) eqn:E; state_simpl; rewrite ?E; now repeat split.
Qed.

Lemma captureAfter_guarded (s : State) :
  is_Some (beforeImageCapture s) \/ captureAfter s = s.
Proof.
  unfold captureAfter. destruct (beforeImageCapture s); [left; eauto|now right].
Qed.

(** An after-frame is never stored without a before-frame. *)
Lemma reachable_frames_ordered (s : State) :
  reachable s -> is_Some (afterImageCapture s) -> is_Some (beforeImageCapture s).
Proof.
  revert s.
  apply (reachable_ind
           (fun s => is_Some (afterImageCapture s) -> is_Some (beforeImageCapture s))).
  - intros portrait mobile [a Ha]. discriminate.
  - intros e s s' _ IH He.
    destruct e as [b|id|n r|r|r| |w h px|p];
      try (apply exec_view in He; [|discriminate];
           injection He as _ _ -> _ ->; exact IH).
    injection He as <-. unfold click.
    destruct (rendered b s && negb (disabled b s)) eqn:Hen; [|exact IH].
    destruct b; cbn [onClick].
    + pose proof (captureBefore_frame s) as E. injection E as _ _ _ _ _ _ Ha _ _.
      rewrite Ha. intros Hafter. apply IH in Hafter.
      apply isSome_is_Some in Hafter. unfold rendered, disabled in Hen.
      rewrite Hafter in Hen. simpl in Hen. now rewrite andb_false_r in Hen.
    + destruct (captureAfter_guarded s) as [Hb | ->]; [|exact IH].
      pose proof (captureAfter_frame s) as E. injection E as _ _ _ _ _ _ Hb' _.
      now rewrite Hb'.
    + pose proof (reset_result s) as (_ & Ha & _). rewrite Ha. intros [a Hx]. discriminate.
    + exact IH.
Qed.

(** X6: the capture phases move only along Live, BeforeCaptured,
    AfterCaptured and back to Live.  In a reachable state a step either
    keeps the phase, or it is a press of Capture Before taking Live to
    BeforeCaptured, a press of Capture After taking BeforeCaptured to
    AfterCaptured, or a press of Reset taking a phase other than Live to
    Live; timers, settling promises, new pictures and [switchCamera] never
    change the phase. *)
Theorem phase_transitions (e : Event) (s s' : State) :
  reachable s ->
  exec e s = Some s' ->
  phase s' = phase s \/
  (e = Click CaptureBeforeButton /\ phase s = Live /\ phase s' = BeforeCaptured) \/
  (e = Click CaptureAfterButton /\ phase s = BeforeCaptured
   /\ phase s' = AfterCaptured) \/
  (e = Click ResetButton /\ phase s <> Live /\ phase s' = Live).
Proof.
  intros Hreach He. pose proof (reachable_frames_ordered s Hreach) as Hord.
  destruct e as [b|id|n r|r|r| |w h px|p];
    try (left; apply exec_view in He; [|discriminate];
         injection He as _ _ Hb _ Ha; unfold phase; now rewrite Hb, Ha).
  injection He as <-. unfold click.
  destruct (rendered b s && negb (disabled b s)) eqn:Hen; [|now left].
  apply andb_prop in Hen as [_ Hen]. apply negb_true_iff in Hen.
  destruct b; cbn [onClick]; unfold disabled in Hen.
  - apply orb_false_elim in Hen as [Hb _].
    destruct (beforeImageCapture s) as [b|] eqn:Eb; [discriminate|].
    destruct (afterImageCapture s) as [a|] eqn:Ea;
      [destruct Hord as [? ?]; [eauto|discriminate]|].
    destruct (captureImage s) as [c|] eqn:Ec.
    + right. left. pose proof (captureBefore_stores s c Ec) as Hb'.
      pose proof (captureBefore_frame s) as E. injection E as _ _ _ _ _ _ Ha' _ _.
      unfold phase. rewrite Hb', Ha', Ea, Eb. now repeat split.
    + left. unfold captureBefore. now rewrite Ec.
  - apply orb_false_elim in Hen as [Hen _]. apply orb_false_elim in Hen as [Hb Ha].
    destruct (beforeImageCapture s) as [b|] eqn:Eb; [|discriminate].
    destruct (afterImageCapture s) as [a|] eqn:Ea; [discriminate|].
    destruct (model s) as [m|] eqn:Em;
      [|left; unfold captureAfter; now rewrite Eb, Em].
    destruct (videoRef s) as [v|] eqn:Ev;
      [|left; unfold captureAfter, captureImage; now rewrite Eb, Em, Ev].
    right. right. left.
    destruct (captureAfter_stores s) as (c & _ & Ha' & Hb' & _).
    { unfold captureAfter_succeeds. rewrite Eb, Em, Ev. eauto. }
    unfold phase. rewrite Ha', Hb', Eb, Ea. now repeat split.
  - apply orb_false_elim in Hen as [Hb _].
    destruct (beforeImageCapture s) as [b|] eqn:Eb; [|discriminate].
    right. right. right. pose proof (reset_result s) as (Hb' & _).
    unfold phase. rewrite Hb', Eb. repeat split. now destruct (afterImageCapture s).
  - left. reflexivity.
Qed.

Lemma phase_transitions_witness :
  phase (state_after (before_captured_events ++ [Click CaptureAfterButton]))
  = AfterCaptured.
Proof.
  destruct (phase_transitions
              (Click CaptureAfterButton) before_captured_state
              (state_after (before_captured_events ++ [Click CaptureAfterButton])))
    as [H | [(H & _) | [(_ & _ & H) | (H & _)]]].
  - exact before_captured_reachable.
  - vm_compute. reflexivity.
  - vm_compute in H. discriminate.
  - discriminate.
  - exact H.
  - discriminate.
Defined.

(** ** reset *)

Lemma reset_of_live (t : State) :
  beforeImageCapture t = None -> afterImageCapture t = None ->
  similarity t = 0%float -> showLiveFeed t = true ->
  (forall img, beforeImageRef t = Some img -> img_display img = "none") ->
  reset t = t.
Proof.
  destruct t as [v ir m b a f sim err mob show load por ints nxt clean sc cam req ua].
  simpl. intros -> -> -> -> Himg. unfold reset, setBeforeImageCapture. simpl.
  unfold setShowLiveFeed. simpl.
  destruct ir as [[src disp]|]; simpl; [|reflexivity].
  now rewrite <- (Himg _ eq_refl).
Qed.

(** X7: [reset] is idempotent: pressing it a second time changes nothing at
    all, timers included. *)
Theorem reset_idempotent (s : State) : reset (reset s) = reset s.
Proof.
  destruct (reset_result s) as (Hb & Ha & Hsim & Hshow & Himg).
  apply reset_of_live; try assumption.
  intros img. rewrite Himg. destruct (beforeImageRef s); [|discriminate].
  now intros [= <-].
Qed.

(** ** captureAfter *)

(** X8: a successful [captureAfter] freezes the picture the video shows and
    starts the final scoring cycle on that same picture: the cycle it
    suspends pairs the stored before-frame with a canvas equal to the stored
    after-frame.  The score itself is not written by [captureAfter]; it
    arrives when that cycle settles. *)
Theorem captureAfter_final_cycle (s : State) :
  captureAfter_succeeds s ->
  exists before captured,
    beforeImageCapture s = Some before /\
    captureImage s = Some captured /\
    afterImageCapture (captureAfter s) = Some captured /\
    scoring (captureAfter s) = scoring s ++ [(before, captured)] /\
    similarity (captureAfter s) = similarity s /\
    showLiveFeed (captureAfter s) = false.
Proof.
  intros ([b Hb] & [m Hm] & [v Hv]).
  exists b, (mkCanvas (videoWidth v) (videoHeight v) (picture v)).
  unfold captureAfter, captureImage. rewrite Hb, Hm, Hv. simpl.
  unfold updateSimilarityScore, captureImage. state_simpl. rewrite Hb, Hv, Hm.
  cbn [snd]. open_setters. now state_simpl.
Qed.

Lemma captureAfter_final_cycle_witness :
  scoring (captureAfter before_captured_state)
  = [(mkCanvas 2 1 first_picture, mkCanvas 2 1 second_picture)].
Proof.
  destruct (captureAfter_final_cycle before_captured_state)
    as (b & c & Hb & Hc & _ & Hs & _).
  - exact captureAfter_succeeds_sample.
  - vm_compute in Hb, Hc. injection Hb as <-. injection Hc as <-. exact Hs.
Defined.

(** ** Suspended scoring cycles *)

(** X9: [reset] does not cancel a scoring cycle that is suspended at its
    [await].  The cycle stays pending across [reset], and when it settles it
    writes its similarity although the phase is Live by then: the score of
    a Live state need not be the 0 that [reset] stored. *)
Theorem suspended_cycle_survives_reset
        (s : State) (n : nat) (cycle : Canvas * Canvas)
        (beforeEmbedding currentEmbedding : list float) :
  scoring s !! n = Some cycle ->
  scoring (reset s) !! n = Some cycle /\
  exists s',
    exec (ScoreSettled n (Fulfilled (beforeEmbedding, currentEmbedding))) (reset s)
    = Some s' /\
    phase s' = Live /\
    beforeImageCapture s' = None /\
    similarity s' = cosineSimilarity beforeEmbedding currentEmbedding.
Proof.
  intros Hn. pose proof (reset_frame s) as E. injection E as _ _ _ _ _ _ Hsc.
  pose proof (reset_result s) as (Hb & _).
  split; [now rewrite Hsc|]. eexists. cbn [exec]. rewrite Hsc, Hn.
  split; [reflexivity|]. unfold phase, updateSimilarityScore_resume. state_simpl.
  now rewrite Hb.
Qed.

Lemma suspended_cycle_survives_reset_witness :
  exists s',
    exec (ScoreSettled 0 (Fulfilled (e_10, e_68)))
         (reset (state_after (before_captured_events ++ [Tick 1]))) = Some s' /\
    phase s' = Live /\
    similarity s' = 0.6%float.
Proof.
  destruct (suspended_cycle_survives_reset
              (state_after (before_captured_events ++ [Tick 1])) 0
              (mkCanvas 2 1 first_picture, mkCanvas 2 1 second_picture) e_10 e_68)
    as (_ & s' & He & Hp & _ & Hs).
  - vm_compute. reflexivity.
  - exists s'. split; [exact He|]. split; [exact Hp|]. rewrite Hs.
    vm_compute. reflexivity.
Defined.

(** X10: the score shown is that of the cycle that settled last, not of the
    cycle that started last.  Of two suspended cycles either may settle
    first; if the older one settles after the newer one, the older
    comparison is the one left in [similarity]. *)
Theorem last_settled_cycle_wins
        (s : State) (i j : nat) (older newer : Canvas * Canvas)
        (r_older r_newer : list float * list float) :
  i < j ->
  scoring s !! i = Some older ->
  scoring s !! j = Some newer ->
  (exists s',
      run [ScoreSettled j (Fulfilled r_newer); ScoreSettled i (Fulfilled r_older)] s
      = Some s' /\
      similarity s' = cosineSimilarity (fst r_older) (snd r_older)) /\
  (exists s',
      run [ScoreSettled i (Fulfilled r_older); ScoreSettled (j - 1) (Fulfilled r_newer)] s
      = Some s' /\
      similarity s' = cosineSimilarity (fst r_newer) (snd r_newer)).
Proof.
  intros Hij Hi Hj. destruct r_older as [ob oc], r_newer as [nb nc].
  split; eexists; cbn [run exec].
  - rewrite Hj. cbn [run exec updateSimilarityScore_resume]. state_simpl.
    rewrite list_lookup_delete_lt by exact Hij. rewrite Hi.
    split; reflexivity.
  - rewrite Hi. cbn [run exec updateSimilarityScore_resume]. state_simpl.
    rewrite list_lookup_delete_ge by lia.
    replace (S (j - 1)) with j by lia. rewrite Hj.
    split; reflexivity.
Qed.

Lemma last_settled_cycle_wins_witness :
  exists s',
    run [ScoreSettled 1 (Fulfilled (e_10, e_10)); ScoreSettled 0 (Fulfilled (e_10, e_01))]
        (state_after (before_captured_events ++ [Tick 1; Tick 1]))
    = Some s' /\
    similarity s' = 0%float.
Proof.
  destruct (last_settled_cycle_wins
              (state_after (before_captured_events ++ [Tick 1; Tick 1])) 0 1
              (mkCanvas 2 1 first_picture, mkCanvas 2 1 second_picture)
              (mkCanvas 2 1 first_picture, mkCanvas 2 1 second_picture)
              (e_10, e_01) (e_10, e_10)) as [(s' & Hrun & Hs) _].
  - lia.
  - vm_compute. reflexivity.
  - vm_compute. reflexivity.
  - exists s'. split; [exact Hrun|]. rewrite Hs. vm_compute. reflexivity.
Defined.

(** X11: the score is written in two places only.  A step changes
    [similarity] only when a scoring cycle settles with its embeddings or
    when Reset is pressed; capturing a frame, a timer firing, a failed
    inference, the camera and the model load leave the last score as it
    is. *)
Theorem similarity_writers (e : Event) (s s' : State) :
  exec e s = Some s' ->
  similarity s' <> similarity s ->
  (exists n r, e = ScoreSettled n (Fulfilled r)) \/ e = Click ResetButton.
Proof.
  destruct e as [b|id|n r|r|r| |w h px|p]; cbn [exec].
  - intros [= <-] Hne. destruct b; [| |now right|]; exfalso; apply Hne; unfold click;
      destruct (rendered _ s && negb _); try reflexivity; cbn [onClick].
    + pose proof (captureBefore_frame s) as E. now injection E as _ _ _ _ _ _ _ -> _.
    + pose proof (captureAfter_frame s) as E. now injection E as _ _ _ _ _ _ _ ->.
  - case_bool_decide; [|discriminate]. intros [= <-] Hne. exfalso. apply Hne.
    destruct (updateSimilarityScore_scoring s) as [q ->]. reflexivity.
  - destruct (scoring s !! n); [|discriminate]. intros [= <-] Hne.
    destruct r as [r|msg]; [left; eauto|]. now destruct Hne.
  - destruct (cameraRequests s) as [|c rest]; [discriminate|]. intros [= <-] Hne.
    exfalso. apply Hne. destruct r; unfold setupCamera_resume; state_simpl;
      [|reflexivity]. now destruct (videoRef s).
  - destruct (modelRequest s); [|discriminate]. intros [= <-] Hne.
    exfalso. apply Hne. unfold loadModel_resume.
    destruct r;
      match goal with |- context [setIsModelLoading false ?t] =>
        pose proof (setIsModelLoading_frame false t) as E;
        now injection E as _ _ _ _ -> _ end.
  - destruct (videoRef s) as [v|] eqn:E; [|discriminate].
    destruct (isSome (srcObject v)); [|discriminate]. intros [= <-] Hne.
    exfalso. apply Hne. unfold onloadedmetadata. now rewrite E.
  - unfold videoFrame. destruct (videoRef s) as [v|]; [|discriminate].
    destruct (srcObject v); [|discriminate]. intros [= <-] Hne. now destruct Hne.
  - intros [= <-] Hne. now destruct Hne.
Qed.

Lemma similarity_writers_witness :
  (exists n r, ScoreSettled 0 (Fulfilled (e_10, e_68)) = ScoreSettled n (Fulfilled r))
  \/ ScoreSettled 0 (Fulfilled (e_10, e_68)) = Click ResetButton.
Proof.
  apply (similarity_writers
           (ScoreSettled 0 (Fulfilled (e_10, e_68)))
           (state_after (before_captured_events ++ [Tick 1]))
           (state_after (before_captured_events
                         ++ [Tick 1; ScoreSettled 0 (Fulfilled (e_10, e_68))]))).
  - vm_compute. reflexivity.
  - vm_compute. intros E. discriminate.
Defined.

(** ** The facing mode *)

Lemma toggleFacingMode_values (prev : string) :
  toggleFacingMode prev = "user" \/ toggleFacingMode prev = "environment".
Proof. unfold toggleFacingMode. case_bool_decide; auto. Qed.

Lemma exec_facing_mode (e : Event) (s s' : State) :
  exec e s = Some s' ->
  currentFacingMode s' = currentFacingMode s \/
  currentFacingMode s' = toggleFacingMode (currentFacingMode s).
Proof.
  destruct e as [b|id|n r|r|r| |w h px|p]; cbn [exec].
  - intros [= <-]. unfold click. destruct (rendered _ s && negb _); [|now left].
    destruct b; cbn [onClick].
    + left. pose proof (captureBefore_frame s) as E. now injection E as _ _ _ _ _ -> _ _ _.
    + left. pose proof (captureAfter_frame s) as E. now injection E as _ _ _ _ _ -> _ _.
    + left. pose proof (reset_frame s) as E. now injection E as _ _ _ _ _ -> _.
    + right. reflexivity.
  - case_bool_decide; [|discriminate]. intros [= <-]. left.
    destruct (updateSimilarityScore_scoring s) as [q ->]. reflexivity.
  - destruct (scoring s !! n); [|discriminate]. intros [= <-].
    destruct r as [[eb ec]|msg]; now left.
  - destruct (cameraRequests s) as [|c rest]; [discriminate|]. intros [= <-]. left.
    destruct r; unfold setupCamera_resume; state_simpl; [|reflexivity].
    now destruct (videoRef s).
  - destruct (modelRequest s); [|discriminate]. intros [= <-]. left.
    unfold loadModel_resume.
    destruct r;
      match goal with |- context [setIsModelLoading false ?t] =>
        pose proof (setIsModelLoading_frame false t) as E;
        now injection E as _ _ _ -> _ _ end.
  - destruct (videoRef s) as [v|] eqn:E; [|discriminate].
    destruct (isSome (srcObject v)); [|discriminate]. intros [= <-]. left.
    unfold onloadedmetadata. now rewrite E.
  - unfold videoFrame. destruct (videoRef s) as [v|]; [|discriminate].
    destruct (srcObject v); [|discriminate]. intros [= <-]. now left.
  - intros [= <-]. now left.
Qed.

(** X12: the facing mode is always one of the two cameras, and
    [switchCamera] alternates between them: in every reachable state
    [currentFacingMode] is "user" or "environment", one [switchCamera]
    changes it and a second one restores it; its request to the camera
    carries the new mode. *)
Theorem facing_mode_alternates (s : State) :
  reachable s ->
  (currentFacingMode s = "user" \/ currentFacingMode s = "environment") /\
  currentFacingMode (switchCamera s) <> currentFacingMode s /\
  currentFacingMode (switchCamera (switchCamera s)) = currentFacingMode s /\
  (facingMode <$> last (cameraRequests (switchCamera s)))
  = Some (currentFacingMode (switchCamera s)).
Proof.
  intros Hreach.
  assert (Hmode : currentFacingMode s = "user" \/ currentFacingMode s = "environment").
  { revert s Hreach. apply reachable_ind.
    - intros portrait mobile. now left.
    - intros e s s' _ IH He.
      destruct (exec_facing_mode e s s' He) as [-> | ->];
        [exact IH|apply toggleFacingMode_values]. }
  split; [exact Hmode|].
  unfold switchCamera, setupCamera_begin. state_simpl.
  split; [|split].
  - destruct Hmode as [-> | ->]; discriminate.
  - destruct Hmode as [-> | ->]; reflexivity.
  - now rewrite last_snoc.
Qed.

Lemma facing_mode_alternates_witness :
  currentFacingMode (switchCamera (switchCamera before_captured_state)) = "user".
Proof.
  destruct (facing_mode_alternates before_captured_state) as (_ & _ & H & _).
  - exact before_captured_reachable.
  - rewrite H. reflexivity.
Defined.

(** ** Buttons and timer ticks in reachable states *)

Lemma reachable_before_means_loaded (s : State) :
  reachable s -> is_Some (beforeImageCapture s) ->
  isModelLoading s = false /\ is_Some (videoRef s).
Proof.
  intros Hreach [b Hb]. destruct (reachable_view_mounted s Hreach) as [Hload Hready].
  destruct (isModelLoading s) eqn:El.
  - destruct (Hload eq_refl) as (_ & _ & Hnone). congruence.
  - split; [reflexivity|]. now apply Hready.
Qed.

(** X16: the buttons follow the phase.  In every reachable state Capture
    Before is enabled exactly in the Live phase once the model load has
    settled, Capture After exactly in the BeforeCaptured phase and Reset
    exactly outside the Live phase; so the two capture buttons are never
    enabled together, and a press on an enabled button is the handler
    itself. *)
Theorem buttons_follow_phase (s : State) :
  reachable s ->
  (enabled CaptureBeforeButton s = true
   <-> phase s = Live /\ isModelLoading s = false) /\
  (enabled CaptureAfterButton s = true <-> phase s = BeforeCaptured) /\
  (enabled ResetButton s = true <-> phase s <> Live) /\
  (forall b, enabled b s = true -> click b s = onClick b s) /\
  (forall b, enabled b s = false -> click b s = s).
Proof.
  intros Hreach.
  pose proof (reachable_before_means_loaded s Hreach) as Hloaded.
  pose proof (reachable_frames_ordered s Hreach) as Hord.
  assert (Hclick : (forall b, enabled b s = true -> click b s = onClick b s) /\
                   (forall b, enabled b s = false -> click b s = s)).
  { split; intros b Hb; unfold click; unfold enabled in Hb; now rewrite Hb. }
  destruct Hclick as [Hon Hoff].
  assert (Hmain :
    (enabled CaptureBeforeButton s = true
     <-> phase s = Live /\ isModelLoading s = false) /\
    (enabled CaptureAfterButton s = true <-> phase s = BeforeCaptured) /\
    (enabled ResetButton s = true <-> phase s <> Live)).
  { revert Hloaded Hord. unfold enabled, rendered, disabled, phase.
    destruct (beforeImageCapture s) as [b|], (afterImageCapture s) as [a|],
             (isModelLoading s);
      simpl; intros Hloaded Hord;
      try (destruct Hloaded as [? _]; [solve [eauto]|discriminate]);
      try (destruct Hord as [? ?]; [solve [eauto]|discriminate]);
      repeat split; try (intros [? ?]); intros; try discriminate; try congruence. }
  destruct Hmain as (H1 & H2 & H3). repeat split; try apply H1; try apply H2;
    try apply H3; assumption.
Qed.

Lemma buttons_follow_phase_witness :
  enabled CaptureAfterButton before_captured_state = true /\
  enabled CaptureBeforeButton before_captured_state = false.
Proof.
  destruct (buttons_follow_phase before_captured_state) as (Hb & Ha & _).
  - exact before_captured_reachable.
  - split; [apply Ha; reflexivity|].
    destruct (enabled CaptureBeforeButton before_captured_state) eqn:E; [|reflexivity].
    destruct Hb as [Hb _]. destruct (Hb eq_refl) as [Hp _]. discriminate.
Defined.

(** X17: a timer tick never finds the guard of [updateSimilarityScore]
    unmet.  Ticks happen only while a before-frame is stored, and then the
    video element exists, so the cycle never returns at
    [if (!before || !current)]: with a model it suspends one more cycle,
    pairing the stored before-frame with a capture of the current picture,
    whether or not earlier cycles are still pending; without a model it
    throws and changes nothing. *)
Theorem tick_starts_cycle (s s' : State) (id : nat) :
  reachable s ->
  exec (Tick id) s = Some s' ->
  exists before current,
    beforeImageCapture s = Some before /\
    captureImage s = Some current /\
    (is_Some (model s) ->
     updateSimilarityScore s = (Suspended, s') /\
     scoring s' = scoring s ++ [(before, current)]) /\
    (model s = None -> updateSimilarityScore s = (Threw, s') /\ s' = s).
Proof.
  intros Hreach He.
  assert (Hphase : phase s = BeforeCaptured).
  { apply (tick_only_while_scorable s id); [now apply reachable_invariant|].
    rewrite He. discriminate. }
  unfold phase in Hphase.
  destruct (beforeImageCapture s) as [b|] eqn:Eb; [|discriminate].
  destruct (reachable_before_means_loaded s Hreach) as [_ [v Hv]]; [rewrite Eb; eauto|].
  exists b, (mkCanvas (videoWidth v) (videoHeight v) (picture v)).
  cbn [exec] in He. case_bool_decide; [|discriminate]. injection He as <-.
  unfold updateSimilarityScore, captureImage. rewrite Eb, Hv.
  split; [reflexivity|]. split; [reflexivity|].
  split; [intros [m ->]; now split|intros ->; now split].
Qed.

Lemma tick_starts_cycle_witness :
  scoring (state_after (before_captured_events ++ [Tick 1; Tick 1]))
  = scoring (state_after (before_captured_events ++ [Tick 1]))
      ++ [(mkCanvas 2 1 first_picture, mkCanvas 2 1 second_picture)].
Proof.
  destruct (tick_starts_cycle
              (state_after (before_captured_events ++ [Tick 1]))
              (state_after (before_captured_events ++ [Tick 1; Tick 1])) 1)
    as (b & c & Hb & Hc & Hs & _).
  - exists false, true, (before_captured_events ++ [Tick 1]). vm_compute. reflexivity.
  - vm_compute. reflexivity.
  - vm_compute in Hb, Hc. injection Hb as <-. injection Hc as <-.
    apply Hs. vm_compute. eauto.
Defined.

(** ** The similarity engine off its contract *)

Lemma Prim2SF_nan : Prim2SF nan = S754_nan.
Proof. reflexivity. Qed.

Lemma float_nan_intro (x : float) : Prim2SF x = S754_nan -> x = nan.
Proof. intros E. apply Prim2SF_inj. now rewrite E. Qed.

Lemma float_add_nan_l (x : float) : (nan + x)%float = nan.
Proof. apply float_nan_intro. now rewrite add_spec, Prim2SF_nan. Qed.

Lemma float_add_nan_r (x : float) : (x + nan)%float = nan.
Proof.
  apply float_nan_intro. rewrite add_spec, Prim2SF_nan.
  unfold SF64add, SFadd. now destruct (Prim2SF x).
Qed.

Lemma float_mul_nan_r (x : float) : (x * nan)%float = nan.
Proof.
  apply float_nan_intro. rewrite mul_spec, Prim2SF_nan.
  unfold SF64mul, SFmul. now destruct (Prim2SF x).
Qed.

Lemma float_div_nan_l (x : float) : (nan / x)%float = nan.
Proof. apply float_nan_intro. now rewrite div_spec, Prim2SF_nan. Qed.

(** Once the running sum is NaN it stays NaN. *)
Lemma reduce_products_nan (a b sa : list float) : forall i,
  reduce_from (fun sum _ i => num_add sum (num_mul (at_index a i) (at_index b i)))
              i sa nan
  = nan.
Proof.
  induction sa as [|x sa IH]; intros i; [reflexivity|].
  cbn [reduce_from num_add float_number]. rewrite float_add_nan_l. apply IH.
Qed.

Lemma at_index_out (b : list float) (i : nat) : length b <= i -> at_index b i = nan.
Proof. intros H. unfold at_index. now rewrite (lookup_ge_None_2 b i H). Qed.

Lemma at_index_app_l (b extra : list float) (i : nat) :
  i < length b -> at_index (b ++ extra) i = at_index b i.
Proof. intros H. unfold at_index. now rewrite lookup_app_l. Qed.

(** A slot missing from the second array turns the running sum into NaN. *)
Lemma reduce_products_short (a b sa : list float) : forall i acc,
  sa <> [] ->
  length b < i + length sa ->
  reduce_from (fun sum _ i => num_add sum (num_mul (at_index a i) (at_index b i)))
              i sa acc
  = nan.
Proof.
  induction sa as [|x sa IH]; intros i acc Hne Hlen; [congruence|].
  cbn [reduce_from length] in *.
  destruct (decide (length b <= i)) as [Hout | Hin].
  - rewrite (at_index_out b i Hout). cbn [num_add num_mul float_number].
    rewrite float_mul_nan_r, float_add_nan_r. apply reduce_products_nan.
  - apply IH; [|lia]. destruct sa; [simpl in Hlen; lia|discriminate].
Qed.

(** X13: outside the equal-length contract.  When the second array is
    shorter than the first, [b[i]] is [undefined] for the last indices, the
    products there are NaN and so is the result.  When it is longer, the
    dot product stops at the length of the first array and silently ignores
    the rest, which still counts in the second magnitude. *)
Theorem cosineSimilarity_length_mismatch (a b extra : list float) :
  (length b < length a -> cosineSimilarity a b = nan) /\
  (length a = length b ->
   cosineSimilarity a (b ++ extra)
   = (dot a b / (norm a * norm (b ++ extra)))%float).
Proof.
  split.
  - intros Hlen. unfold cosineSimilarity, reduce.
    rewrite (reduce_products_short a b a 0 num_zero);
      [|destruct a; [simpl in Hlen; lia|discriminate]|simpl; lia].
    apply float_div_nan_l.
  - intros Hlen. unfold cosineSimilarity, norm. rewrite !reduce_squares. f_equal.
    rewrite <- (reduce_products a b Hlen). unfold reduce.
    assert (Hgen : forall (sa : list float) i (acc : float), i + length sa <= length b ->
              reduce_from
                (fun sum _ i => num_add sum (num_mul (at_index a i) (at_index (b ++ extra) i)))
                i sa acc
              = reduce_from
                (fun sum _ i => num_add sum (num_mul (at_index a i) (at_index b i)))
                i sa acc).
    { induction sa as [|x sa IH]; intros i acc Hi; [reflexivity|].
      cbn [reduce_from length] in *.
      rewrite at_index_app_l by lia. apply IH. lia. }
    apply Hgen. simpl. lia.
Qed.

Lemma cosineSimilarity_length_mismatch_witness :
  cosineSimilarity e_10 [1%float] = nan /\
  cosineSimilarity e_10 (e_68 ++ [1%float])
  = (dot e_10 e_68 / (norm e_10 * norm (e_68 ++ [1%float])))%float.
Proof.
  split.
  - apply (proj1 (cosineSimilarity_length_mismatch e_10 [1%float] [])).
    unfold e_10. simpl. lia.
  - apply (proj2 (cosineSimilarity_length_mismatch e_10 e_68 [1%float])). reflexivity.
Defined.

(** *** Zero vectors *)

Lemma zero_or_nan_of_eqb (x : float) : (x =? 0)%float = true -> zero_or_nan x.
Proof.
  rewrite FloatAxioms.eqb_spec. unfold zero_or_nan, SFeqb.
  change (Prim2SF 0) with (S754_zero false).
  destruct (Prim2SF x) as [s|[]| |[] m e]; simpl; try discriminate; trivial.
Qed.

Lemma zero_or_nan_nan : zero_or_nan nan.
Proof. exact I. Qed.

Lemma zero_or_nan_zero : zero_or_nan 0.
Proof. exact I. Qed.

Lemma zero_or_nan_mul_l (x y : float) : zero_or_nan x -> zero_or_nan (x * y).
Proof.
  unfold zero_or_nan. rewrite mul_spec. unfold SF64mul, SFmul.
  destruct (Prim2SF x); try tauto; destruct (Prim2SF y); simpl; tauto.
Qed.

Lemma zero_or_nan_mul_r (x y : float) : zero_or_nan y -> zero_or_nan (x * y).
Proof. rewrite float_mul_comm. apply zero_or_nan_mul_l. Qed.

Lemma zero_or_nan_add (x y : float) :
  zero_or_nan x -> zero_or_nan y -> zero_or_nan (x + y).
Proof.
  unfold zero_or_nan. rewrite add_spec. unfold SF64add, SFadd.
  destruct (Prim2SF x) as [[]|[]| |[] ? ?]; try tauto;
    destruct (Prim2SF y) as [[]|[]| |[] ? ?]; simpl; tauto.
Qed.

Lemma zero_or_nan_sqrt (x : float) : zero_or_nan x -> zero_or_nan (PrimFloat.sqrt x).
Proof.
  unfold zero_or_nan. rewrite sqrt_spec. unfold SF64sqrt, SFsqrt.
  destruct (Prim2SF x) as [s|[]| |[] ? ?]; try tauto.
Qed.

Lemma zero_or_nan_div (x y : float) :
  zero_or_nan x -> zero_or_nan y -> (x / y)%float = nan.
Proof.
  unfold zero_or_nan. intros Hx Hy. apply float_nan_intro.
  rewrite div_spec. unfold SF64div, SFdiv.
  destruct (Prim2SF x); try contradiction; destruct (Prim2SF y);
    try contradiction; reflexivity.
Qed.

Lemma zero_or_nan_at_index (a : list float) (i : nat) :
  Forall (fun x => (x =? 0)%float = true) a -> zero_or_nan (at_index a i).
Proof.
  intros Ha. unfold at_index. destruct (a !! i) as [x|] eqn:E; simpl.
  - apply zero_or_nan_of_eqb. rewrite Forall_forall in Ha. apply Ha.
    eapply list_elem_of_lookup_2. exact E.
  - exact zero_or_nan_nan.
Qed.

Lemma zero_or_nan_reduce (f : float -> float -> nat -> float) (sa : list float) :
  (forall acc x i, zero_or_nan acc -> x ∈ sa -> zero_or_nan (f acc x i)) ->
  forall i acc, zero_or_nan acc -> zero_or_nan (reduce_from f i sa acc).
Proof.
  induction sa as [|x sa IH]; intros Hf i acc Hacc; simpl; [exact Hacc|].
  apply IH.
  - intros acc' y j Hacc' Hy. apply Hf; [exact Hacc'|]. now apply list_elem_of_further.
  - apply Hf; [exact Hacc|]. apply list_elem_of_here.
Qed.

(** X14: a vector of zeros has no direction.  If every element of one of
    the two arrays is zero (of either sign), the result is NaN whatever the
    other array holds, and the indicator, whose two comparisons both fail
    on NaN, shows the colour of the high band. *)
Theorem zero_vector_similarity (a b : list float) :
  Forall (fun x => (x =? 0)%float = true) a ->
  cosineSimilarity a b = nan /\
  cosineSimilarity b a = nan /\
  similarityIndicator (cosineSimilarity a b) = bandColor High.
Proof.
  intros Ha.
  assert (Hsq : zero_or_nan
                  (num_sqrt (reduce (fun sum val _ => num_add sum (num_mul val val))
                                    a num_zero))).
  { apply zero_or_nan_sqrt, zero_or_nan_reduce; [|exact zero_or_nan_zero].
    intros acc x i Hacc Hx. apply zero_or_nan_add; [exact Hacc|].
    apply zero_or_nan_mul_l, zero_or_nan_of_eqb.
    rewrite Forall_forall in Ha. now apply Ha. }
  assert (E1 : cosineSimilarity a b = nan).
  { unfold cosineSimilarity. apply zero_or_nan_div.
    - apply zero_or_nan_reduce; [|exact zero_or_nan_zero].
      intros acc x i Hacc _. apply zero_or_nan_add; [exact Hacc|].
      now apply zero_or_nan_mul_l, zero_or_nan_at_index.
    - now apply zero_or_nan_mul_l. }
  split; [exact E1|]. split.
  - unfold cosineSimilarity. apply zero_or_nan_div.
    + apply zero_or_nan_reduce; [|exact zero_or_nan_zero].
      intros acc x i Hacc _. apply zero_or_nan_add; [exact Hacc|].
      now apply zero_or_nan_mul_r, zero_or_nan_at_index.
    + now apply zero_or_nan_mul_r.
  - rewrite E1. reflexivity.
Qed.

Lemma zero_vector_similarity_witness :
  cosineSimilarity [0; -0]%float e_68 = nan /\
  similarityIndicator (cosineSimilarity [0; -0]%float e_68) = "#1e8e3e".
Proof.
  destruct (zero_vector_similarity [0; -0]%float e_68) as (H1 & _ & H2).
  - repeat constructor.
  - exact (conj H1 H2).
Defined.

(** On binary64 numbers rounding can take the quotient just above 1. *)
Example binary64_score_above_one :
  (1 <? cosineSimilarity [0.125; 0.625] [0.125; 0.625])%float = true.
Proof. vm_compute. reflexivity. Qed.

(** ** Self-similarity on binary64 *)






(** ** Rounding in the self-similarity quotient

    What follows reads the three operations of [s / (sqrt s * sqrt s)] off
    their binary64 specification, on mantissas and exponents: the root of a
    finite [s] is rounded to nearest, its square and the quotient are at most
    one unit of the last place away from the exact values, and for a
    subnormal [s] the square gives [s] back. *)

Section Binary64Rounding.
#[local] Open Scope Z_scope.





























End Binary64Rounding.




(** ** Capture Before after a failed model load *)

(** The part of the guard the code has: while a before-frame is stored or
    the model is loading the Capture Before button is disabled or absent,
    and a press changes nothing. *)
Lemma press_refused_with_before_or_loading (s : State) :
  beforeImageCapture s <> None \/ isModelLoading s = true ->
  click CaptureBeforeButton s = s.
Proof.
  intros Hs. unfold click, rendered, disabled.
  destruct Hs as [Hs | ->]; [|reflexivity].
  destruct (beforeImageCapture s); [|congruence].
  simpl. now rewrite andb_false_r.
Qed.

Lemma load_failed_reachable (portrait mobile : bool) (message : string) :
  reachable (load_failed_state portrait mobile message).
Proof.
  exists portrait, mobile, [ModelSettled (Failed message)]. vm_compute. reflexivity.
Qed.

(** C1, at the failing input: the model is not ready because its load has
    failed.  In every reachable state with no model, the load settled and no
    before-frame stored, Capture Before is enabled, and a press (like a
    direct call of [captureBefore]) is not a no-op: it stores a capture of
    whatever the video element shows and starts the scoring interval. *)
Theorem captureBefore_without_model (s : State) :
  reachable s ->
  model s = None ->
  isModelLoading s = false ->
  beforeImageCapture s = None ->
  exists captured,
    captureImage s = Some captured /\
    disabled CaptureBeforeButton s = false /\
    click CaptureBeforeButton s = captureBefore s /\
    beforeImageCapture (captureBefore s) = Some captured /\
    captureBefore s <> s /\
    (exists id, id ∈ intervals (captureBefore s)).
Proof.
  intros Hreach Hm Hl Hb.
  destruct (reachable_view_mounted s Hreach) as [_ Hready].
  destruct (Hready Hl) as [v Hv].
  exists (mkCanvas (videoWidth v) (videoHeight v) (picture v)).
  assert (Hc : captureImage s
               = Some (mkCanvas (videoWidth v) (videoHeight v) (picture v))).
  { unfold captureImage. now rewrite Hv. }
  pose proof (captureBefore_stores s _ Hc) as Hstored.
  split; [exact Hc|].
  split; [unfold disabled; now rewrite Hb, Hl|].
  split; [unfold click, rendered, disabled; now rewrite Hb, Hl|].
  split; [exact Hstored|].
  split; [intros E; rewrite E, Hb in Hstored; discriminate|].
  pose proof (captureBefore_invariant s (reachable_invariant s Hreach))
    as (Hown & Hset & Hfeed).
  pose proof (reachable_invariant s Hreach) as (_ & _ & Hfeed0).
  pose proof (reachable_frames_ordered s Hreach) as Hord.
  assert (Ha : afterImageCapture s = None).
  { destruct (afterImageCapture s) eqn:Ea; [|reflexivity].
    destruct Hord as [? ?]; [eauto|congruence]. }
  pose proof (captureBefore_frame s) as E. injection E as _ _ _ _ _ _ Ha' _ _.
  destruct Hset as [_ Hset]. destruct Hset as [id Hid].
  - split; [rewrite Hstored; eauto|].
    unfold feed_follows_after in Hfeed. now rewrite Hfeed, Ha', Ha.
  - exists id. now apply Hown.
Qed.

Lemma captureBefore_without_model_witness :
  model (load_failed_state false true "offline") = None /\
  beforeImageCapture (click CaptureBeforeButton (load_failed_state false true "offline"))
  = Some (mkCanvas 0 0 []).
Proof.
  destruct (captureBefore_without_model (load_failed_state false true "offline"))
    as (c & Hc & _ & Hclick & Hb & _).
  - apply load_failed_reachable.
  - reflexivity.
  - reflexivity.
  - reflexivity.
  - split; [reflexivity|]. rewrite Hclick, Hb. rewrite <- Hc. reflexivity.
Defined.

(** ** A tick with no stream *)

(** A video element without a stream is the blank element the view
    created: no picture has reached it. *)
Lemma reachable_streamless_blank (s : State) :
  reachable s ->
  forall v, videoRef s = Some v -> srcObject v = None -> v = mkVideo None false 0 0 [].
Proof.
  revert s.
  apply (reachable_ind
           (fun s => forall v, videoRef s = Some v -> srcObject v = None ->
                               v = mkVideo None false 0 0 [])).
  - intros portrait mobile v Hv. discriminate.
  - intros e s s' _ IH He.
    destruct e as [b|id|n r|r|r| |w h px|p]; cbn [exec] in He.
    + injection He as <-. pose proof (click_frame b s) as E.
      injection E as -> _ _ _ _. exact IH.
    + case_bool_decide; [|discriminate]. injection He as <-.
      destruct (updateSimilarityScore_scoring s) as [q ->]. exact IH.
    + destruct (scoring s !! n); [|discriminate]. injection He as <-.
      destruct r as [[eb ec]|msg]; exact IH.
    + destruct (cameraRequests s) as [|c rest]; [discriminate|]. injection He as <-.
      destruct r as [u|msg]; unfold setupCamera_resume; state_simpl; [|exact IH].
      destruct (videoRef s) as [v0|] eqn:Ev; state_simpl.
      * intros v [= <-]. discriminate.
      * now rewrite Ev.
    + destruct (modelRequest s); [|discriminate]. injection He as <-.
      assert (Hgen : forall t,
                (forall v, videoRef t = Some v -> srcObject v = None ->
                           v = mkVideo None false 0 0 []) ->
                forall v, videoRef (setIsModelLoading false t) = Some v ->
                          srcObject v = None -> v = mkVideo None false 0 0 []).
      { intros t Ht. unfold setIsModelLoading. case_bool_decide; [exact Ht|].
        state_simpl. now intros v [= <-]. }
      unfold loadModel_resume. destruct r; apply Hgen; exact IH.
    + destruct (videoRef s) as [v0|] eqn:Ev; [|discriminate].
      destruct (isSome (srcObject v0)) eqn:Es; [|discriminate]. injection He as <-.
      unfold onloadedmetadata. rewrite Ev. state_simpl.
      intros v [= <-] E. simpl in E. rewrite E in Es. discriminate.
    + unfold videoFrame in He. destruct (videoRef s) as [v0|]; [|discriminate].
      destruct (srcObject v0) eqn:Es; [|discriminate]. injection He as <-.
      state_simpl. intros v [= <-] E. simpl in E. congruence.
    + injection He as <-. exact IH.
Qed.

Lemma streamless_reachable : reachable (state_after streamless_events).
Proof. exists false, true, streamless_events. vm_compute. reflexivity. Qed.

(** C8, at the failing input: a timer tick while the video element has no
    stream (the camera was granted before the element existed, or has not
    been granted yet).  No live frame can be sampled, but the tick is not
    skipped: [captureImage] returns [null] only when the element itself is
    missing, which never happens at a tick, so here it returns an empty 0 by
    0 canvas, the guard of line 92 passes, and with a model the cycle goes on
    to its embeddings; when they settle it writes a score. *)
Theorem tick_without_stream_not_skipped (s s' : State) (id : nat) (v : Video) :
  reachable s ->
  exec (Tick id) s = Some s' ->
  videoRef s = Some v ->
  srcObject v = None ->
  is_Some (model s) ->
  exists before,
    beforeImageCapture s = Some before /\
    captureImage s = Some (mkCanvas 0 0 []) /\
    updateSimilarityScore s = (Suspended, s') /\
    scoring s' = scoring s ++ [(before, mkCanvas 0 0 [])] /\
    s' <> s /\
    forall beforeEmbedding currentEmbedding,
    exists s'',
      exec (ScoreSettled (length (scoring s))
                         (Fulfilled (beforeEmbedding, currentEmbedding))) s'
      = Some s'' /\
      similarity s'' = cosineSimilarity beforeEmbedding currentEmbedding.
Proof.
  intros Hreach He Hv Hsrc [m Hm].
  pose proof (reachable_streamless_blank s Hreach v Hv Hsrc) as ->.
  assert (Hphase : phase s = BeforeCaptured).
  { apply (tick_only_while_scorable s id); [now apply reachable_invariant|].
    rewrite He. discriminate. }
  unfold phase in Hphase.
  destruct (beforeImageCapture s) as [b|] eqn:Eb; [|discriminate].
  exists b. cbn [exec] in He. case_bool_decide; [|discriminate]. injection He as <-.
  assert (Hu : updateSimilarityScore s
               = (Suspended, with_scoring (scoring s ++ [(b, mkCanvas 0 0 [])]) s)).
  { unfold updateSimilarityScore, captureImage. now rewrite Eb, Hv, Hm. }
  rewrite Hu. cbn [snd]. state_simpl.
  split; [reflexivity|]. split; [unfold captureImage; now rewrite Hv|].
  split; [reflexivity|]. split; [reflexivity|]. split.
  - intros E. apply (f_equal (fun t => length (scoring t))) in E.
    state_simpl. rewrite length_app in E. simpl in E. lia.
  - intros eb ec. eexists. cbn [exec]. state_simpl.
    rewrite lookup_app_r by lia. rewrite Nat.sub_diag. cbn [lookup list_lookup].
    split; reflexivity.
Qed.

Lemma tick_without_stream_not_skipped_witness :
  updateSimilarityScore (state_after streamless_events)
  = (Suspended, state_after (streamless_events ++ [Tick 1])) /\
  scoring (state_after (streamless_events ++ [Tick 1]))
  = [(mkCanvas 0 0 [], mkCanvas 0 0 [])].
Proof.
  destruct (tick_without_stream_not_skipped
              (state_after streamless_events)
              (state_after (streamless_events ++ [Tick 1])) 1
              (mkVideo None false 0 0 []))
    as (b & Hb & _ & Hu & Hs & _).
  - exact streamless_reachable.
  - vm_compute. reflexivity.
  - vm_compute. reflexivity.
  - reflexivity.
  - vm_compute. eauto.
  - split; [exact Hu|]. vm_compute in Hb. injection Hb as <-. rewrite Hs.
    vm_compute. reflexivity.
Defined.
